(** * Tweet classification and extraction (ts/tweet.ts)

    A shallow embedding of the [Tweet] class of ts/tweet.ts: the
    constructor, the helper [stripped] and the getters [source], [written],
    [writtenText], [activityType] and [distance], together with the part
    of the JavaScript string and regular-expression semantics they rely on.

    Strings are sequences of UTF-16 code units ([list N]).  Numbers that
    the getters return are kept as exact rationals: the JavaScript value is
    the IEEE double nearest to the rational given here. *)

From Stdlib Require Import List NArith ZArith QArith Qabs Bool Ascii String Lia Arith.
Import ListNotations.

Close Scope Q_scope.

#[local] Abbreviation length := List.length.

(** ** JavaScript strings and the built-ins used by tweet.ts *)

Module JS.

Abbreviation cu := N.
Abbreviation jsstring := (list N).

(** A string literal of the source, as code units. *)
Definition js (s : string) : jsstring :=
  List.map N_of_ascii (list_ascii_of_string s).
Arguments js s%_string.

Definition between (lo hi c : N) : bool := (lo <=? c)%N && (c <=? hi)%N.

(** WhiteSpace and LineTerminator of ECMAScript: what [\s] matches and
    what [trim] removes. *)
Definition is_white (c : cu) : bool :=
  between 9 13 c || (c =? 32)%N || (c =? 160)%N || (c =? 5760)%N
  || between 8192 8202 c || (c =? 8232)%N || (c =? 8233)%N
  || (c =? 8239)%N || (c =? 8287)%N || (c =? 12288)%N || (c =? 65279)%N.

Definition is_digit (c : cu) : bool := between 48 57 c.
Definition is_upper (c : cu) : bool := between 65 90 c.
Definition is_lower (c : cu) : bool := between 97 122 c.

(** [\w] (no unicode flag): [A-Za-z0-9_]. *)
Definition is_word (c : cu) : bool :=
  is_upper c || is_lower c || is_digit c || (c =? 95)%N.

Definition lower_cu (c : cu) : cu := if is_upper c then (c + 32)%N else c.
Definition upper_cu (c : cu) : cu := if is_lower c then (c - 32)%N else c.

(** The lower case of one code unit.  Besides A-Z, two code units outside
    Basic Latin have a lower case inside it: U+0130 gives "i" followed by
    U+0307, and U+212A (the Kelvin sign) gives "k". *)
Definition lower_units (c : cu) : list cu :=
  if is_upper c then [(c + 32)%N]
  else if (c =? 304)%N then [105%N; 775%N]
  else if (c =? 8490)%N then [107%N]
  else [c].

(** [String.prototype.toLowerCase], as far as Basic Latin and white space
    can tell: every code unit that becomes, or comes from, a Basic Latin
    character is mapped as the host maps it.  The other cased letters (the
    host turns U+00C9 into U+00E9, say) are left as they are; the host maps
    them to letters outside Basic Latin, never to white space, and keeps
    their number of code units, so the patterns of tweet.ts, which are
    Basic Latin and white space, see the same text.  Only the comparison
    of two lower-cased texts in descriptions.js can tell the difference. *)
Definition toLowerCase (s : jsstring) : jsstring := flat_map lower_units s.

Fixpoint trimStart (s : jsstring) : jsstring :=
  match s with
  | [] => []
  | c :: s' => if is_white c then trimStart s' else s
  end.

Definition trimEnd (s : jsstring) : jsstring := rev (trimStart (rev s)).

Definition trim (s : jsstring) : jsstring := trimEnd (trimStart s).

Fixpoint startsWith (s p : jsstring) : bool :=
  match p, s with
  | [], _ => true
  | _ :: _, [] => false
  | x :: p', y :: s' => (x =? y)%N && startsWith s' p'
  end.

Fixpoint includes (s p : jsstring) : bool :=
  startsWith s p ||
  match s with
  | [] => false
  | _ :: s' => includes s' p
  end.

Fixpoint eqb_str (a b : jsstring) : bool :=
  match a, b with
  | [], [] => true
  | x :: a', y :: b' => (x =? y)%N && eqb_str a' b'
  | _, _ => false
  end.

(** *** Regular expressions

    The fragment of the pattern language that the literals of tweet.ts
    use.  A position in the subject is a zipper: the code units already
    passed (nearest first) and those still ahead. *)

Record pos := Pos { before : jsstring; after : jsstring }.

Abbreviation caps := (list (nat * list N)).

Abbreviation state := (pos * list (nat * list N))%type.

Inductive regex :=
| Eps
| Chr (p : cu -> bool)
| Seq (r1 r2 : regex)
| Alt (r1 r2 : regex)
| Star (r : regex)
| Bol
| Eol
| WordB
| Group (i : nat) (r : regex).

Definition word_before (z : pos) : bool :=
  match before z with c :: _ => is_word c | [] => false end.

Definition word_after (z : pos) : bool :=
  match after z with c :: _ => is_word c | [] => false end.

Definition at_boundary (z : pos) : bool := xorb (word_before z) (word_after z).

Definition consumed (z z' : pos) : jsstring :=
  firstn (length (after z) - length (after z')) (after z).

(** Greedy repetition: as many rounds of [body] as possible first; a
    round that consumes nothing is rejected, as RepeatMatcher does. *)
Definition star_loop (body : state -> list state) : nat -> state -> list state :=
  fix star (n : nat) (st : state) : list state :=
    match n with
    | O => [st]
    | S n' =>
        flat_map
          (fun st' =>
             if length (after (fst st')) <? length (after (fst st))
             then star n' st' else [])
          (body st)
        ++ [st]
    end.

(** The backtracking matcher: all the ways [r] matches at a position, in
    the order in which the engine tries them.  The head of the list is
    the match the engine reports. *)
Fixpoint run (r : regex) (st : state) : list state :=
  match r with
  | Eps => [st]
  | Chr p =>
      match after (fst st) with
      | c :: a => if p c then [(Pos (c :: before (fst st)) a, snd st)] else []
      | [] => []
      end
  | Seq r1 r2 => flat_map (run r2) (run r1 st)
  | Alt r1 r2 => run r1 st ++ run r2 st
  | Star r1 => star_loop (run r1) (length (after (fst st))) st
  | Bol => match before (fst st) with [] => [st] | _ :: _ => [] end
  | Eol => match after (fst st) with [] => [st] | _ :: _ => [] end
  | WordB => if at_boundary (fst st) then [st] else []
  | Group i r1 =>
      List.map (fun st' => (fst st', (i, consumed (fst st) (fst st')) :: snd st'))
               (run r1 st)
  end.

(** The result of one successful match: what [m[0]] holds and the groups. *)
Record match_result := MatchResult { matched : jsstring; groups : caps }.

Fixpoint lookup (i : nat) (c : caps) : option jsstring :=
  match c with
  | [] => None
  | (j, g) :: c' => if Nat.eqb i j then Some g else lookup i c'
  end.

(** [m[i]] for [i >= 1].  A group that took no part in the match is
    [undefined] in JavaScript; the groups read in tweet.ts always take part. *)
Definition group (m : match_result) (i : nat) : jsstring :=
  match lookup i (groups m) with Some g => g | None => [] end.

Definition match_at (r : regex) (z : pos) : option match_result :=
  match run r (z, []) with
  | [] => None
  | (z', c) :: _ => Some (MatchResult (consumed z z') c)
  end.

(** [RegExp.prototype.exec] from a position on, without the sticky flag:
    the first start position at which the pattern matches. *)
Fixpoint search (r : regex) (bef aft : jsstring) : option match_result :=
  match match_at r (Pos bef aft) with
  | Some m => Some m
  | None =>
      match aft with
      | [] => None
      | c :: aft' => search r (c :: bef) aft'
      end
  end.

(** [s.match(r)] for a pattern without the global flag. *)
Definition match_ (s : jsstring) (r : regex) : option match_result :=
  search r [] s.

(** [r.test(s)]. *)
Definition test (r : regex) (s : jsstring) : bool :=
  match match_ s r with Some _ => true | None => false end.

(** [s.replace(r, rep)] for a pattern with the global flag and a
    replacement without [$] references.  [skip] counts the code units of
    the current match that are still to be dropped.  After an empty match
    the scan moves on by one code unit, which is kept. *)
Fixpoint replace_from (r : regex) (rep : jsstring) (bef aft : jsstring)
         (skip : nat) : jsstring :=
  match aft with
  | [] =>
      match skip, match_at r (Pos bef []) with
      | O, Some _ => rep
      | _, _ => []
      end
  | c :: aft' =>
      match skip with
      | S k => replace_from r rep (c :: bef) aft' k
      | O =>
          match match_at r (Pos bef aft) with
          | None => c :: replace_from r rep (c :: bef) aft' 0
          | Some m =>
              match length (matched m) with
              | O => rep ++ c :: replace_from r rep (c :: bef) aft' 0
              | S k => rep ++ replace_from r rep (c :: bef) aft' k
              end
          end
      end
  end.

Definition replace (s : jsstring) (r : regex) (rep : jsstring) : jsstring :=
  replace_from r rep [] s 0.

(** Pattern syntax. *)
Definition eqb_ci (a c : cu) : bool :=
  (c =? lower_cu a)%N || (c =? upper_cu a)%N.

Fixpoint lit_with (f : cu -> cu -> bool) (s : jsstring) : regex :=
  match s with
  | [] => Eps
  | [c] => Chr (f c)
  | c :: s' => Seq (Chr (f c)) (lit_with f s')
  end.

(** A run of literal characters, and the same under the [i] flag (without
    the unicode flag a Basic Latin letter matches its two cases only). *)
Definition lit (s : string) : regex := lit_with N.eqb (js s).
Definition lit_ci (s : string) : regex := lit_with eqb_ci (js s).
Arguments lit s%_string.
Arguments lit_ci s%_string.

Definition plus (r : regex) : regex := Seq r (Star r).
Definition opt (r : regex) : regex := Alt r Eps.

Definition non_white (c : cu) : bool := negb (is_white c).

(** *** Numbers *)

Inductive number := NaN | Num (q : Q).
Arguments Num q%_Q.

Fixpoint digits_value (acc : Z) (s : jsstring) : Z :=
  match s with
  | [] => acc
  | c :: s' => digits_value (10 * acc + Z.of_N (c - 48)) s'
  end.

Fixpoint pow10 (n : nat) : positive :=
  match n with
  | O => 1%positive
  | S n' => (10 * pow10 n')%positive
  end.

Fixpoint take_digits (s : jsstring) : jsstring * jsstring :=
  match s with
  | c :: s' =>
      if is_digit c
      then let (d, rest) := take_digits s' in (c :: d, rest)
      else ([], s)
  | [] => ([], [])
  end.

(** [parseFloat] on an unsigned decimal literal without exponent, the
    only shape tweet.ts passes to it: digits, then optionally a point and
    more digits.  Anything after that is ignored; no leading digit gives
    NaN. *)
Definition parseFloat (s : jsstring) : number :=
  let (ip, rest) := take_digits s in
  match ip with
  | [] => NaN
  | _ :: _ =>
      let whole := digits_value 0 ip in
      match rest with
      | 46%N :: rest' =>
          let (fp, _) := take_digits rest' in
          Num (Qred (Qmake (digits_value whole fp) (pow10 (length fp))))
      | _ => Num (inject_Z whole)
      end
  end.

Definition num_div (a : number) (b : Q) : number :=
  match a with
  | NaN => NaN
  | Num q => Num (Qred (q / b)%Q)
  end.

End JS.

Import JS.

(** ** The Tweet class *)

(** The regular-expression literals of tweet.ts. *)
Module Patterns.

(** [/https?:\/\/\S+/] *)
Definition url : regex :=
  Seq (lit "http") (Seq (opt (lit "s")) (Seq (lit "://") (plus (Chr non_white)))).

(** [/#Runkeeper/gi] and [/#RunKeeper/gi] *)
Definition tag1 : regex := lit_ci "#Runkeeper".
Definition tag2 : regex := lit_ci "#RunKeeper".

(** [/via @?runkeeper/gi] *)
Definition via : regex :=
  Seq (lit_ci "via ") (Seq (opt (lit_ci "@")) (lit_ci "runkeeper")).

(** [/\s+/g] *)
Definition spaces : regex := plus (Chr is_white).

(** [/^"|"$/g] *)
Definition quotes : regex :=
  Alt (Seq Bol (Chr (N.eqb 34))) (Seq (Chr (N.eqb 34)) Eol).

(** [/\bis (running|biking|walking|skiing|swimming)\b/] *)
Definition is_doing : regex :=
  Seq WordB
    (Seq (lit "is ")
       (Seq (Group 1 (Alt (lit "running") (Alt (lit "biking") (Alt (lit "walking")
                       (Alt (lit "skiing") (lit "swimming"))))))
            WordB)).

(** [new RegExp("\\b" + w + "\\b")] for a word or phrase [w] made of
    letters and spaces, as every entry of [templates] and of the alias
    table is. *)
Definition whole_word (w : jsstring) : regex :=
  Seq WordB (Seq (lit_with N.eqb w) WordB).

(** [/[^a-z0-9]/g] *)
Definition not_alnum : regex :=
  Chr (fun c => negb (is_lower c || is_digit c)).

(** [/completed (?:a|an) (\w+)/] *)
Definition completed_what : regex :=
  Seq (lit "completed ")
    (Seq (Alt (lit "a") (lit "an"))
       (Seq (lit " ") (Group 1 (plus (Chr is_word))))).

(** [(\d+(?:\.\d+)?)], group 1 of the two distance patterns *)
Definition decimal : regex :=
  Group 1 (Seq (plus (Chr is_digit))
               (opt (Seq (Chr (N.eqb 46)) (plus (Chr is_digit))))).

(** [/(\d+(?:\.\d+)?)\s*(mi|mile|miles)\b/] *)
Definition miles : regex :=
  Seq decimal
    (Seq (Star (Chr is_white))
       (Seq (Group 2 (Alt (lit "mi") (Alt (lit "mile") (lit "miles")))) WordB)).

(** [/(\d+(?:\.\d+)?)\s*(km|kilometer|kilometers)\b/] *)
Definition kilometers : regex :=
  Seq decimal
    (Seq (Star (Chr is_white))
       (Seq (Group 2 (Alt (lit "km") (Alt (lit "kilometer") (lit "kilometers")))) WordB)).

End Patterns.

Record Tweet := { text : jsstring; time : jsstring }.

(** [constructor(tweet_text, tweet_time)]: [None] stands for a null or
    undefined text.  [time] keeps the string handed to [new Date]. *)
Definition new_Tweet (tweet_text : option jsstring) (tweet_time : jsstring) : Tweet :=
  {| text := trim (match tweet_text with Some s => s | None => [] end);
     time := tweet_time |}.

Definition firstLink (tw : Tweet) : option jsstring :=
  match match_ (text tw) Patterns.url with
  | Some m => Some (matched m)
  | None => None
  end.

Definition stripped (tw : Tweet) : jsstring :=
  let s := trim (replace (replace (replace (replace (text tw)
                   Patterns.tag1 []) Patterns.tag2 []) Patterns.url []) Patterns.via []) in
  trim (replace (replace s Patterns.spaces (js " ")) Patterns.quotes []).

Definition looksCompleted (t : jsstring) : bool :=
  startsWith t (js "just completed") ||
  startsWith t (js "i just ") ||
  includes t (js " completed a ") ||
  includes t (js " completed an ").

Definition looksLive (t : jsstring) : bool :=
  startsWith t (js "just posted") || test Patterns.is_doing t.

Definition looksAchievement (t : jsstring) : bool :=
  includes t (js "new personal record") ||
  includes t (js "pr!") ||
  includes t (js "achieved") ||
  includes t (js "set a goal") ||
  includes t (js "achievement").

Definition source (tw : Tweet) : jsstring :=
  let t := toLowerCase (text tw) in
  if looksCompleted t then js "completed_event"
  else if looksLive t then js "live_event"
  else if looksAchievement t then js "achievement"
  else js "miscellaneous".

Definition templates : list jsstring :=
  [ js "just completed"; js "just posted"; js "activity"; js "workout";
    js "with runkeeper"; js "check it out"; js "distance"; js "time"; js "pace";
    js "completed a"; js "completed an"; js "posted a"; js "posted an";
    js "run"; js "walk"; js "bike"; js "ride"; js "swim"; js "hike";
    js "elliptical" ].

(** The loop [for (const w of templates) s = s.replace(..., " ")]. *)
Definition remove_templates (s : jsstring) : jsstring :=
  fold_left (fun s w => replace s (Patterns.whole_word w) (js " ")) templates s.

(** The value of [s] in [written] just before the letters are counted. *)
Definition residue (tw : Tweet) : jsstring :=
  trim (replace (remove_templates (toLowerCase (stripped tw)))
                Patterns.spaces (js " ")).

Definition written (tw : Tweet) : bool :=
  let letters := replace (residue tw) Patterns.not_alnum [] in
  3 <=? length letters.

Definition writtenText (tw : Tweet) : jsstring :=
  if written tw then stripped tw else [].

(** The object literal [map] of [activityType], in the order in which
    [Object.entries] lists its keys. *)
Definition activity_map : list (jsstring * list jsstring) :=
  [ (js "running", [js "run"; js "jog"; js "jogging"]);
    (js "walking", [js "walk"; js "hike"; js "hiking"]);
    (js "cycling", [js "bike"; js "biked"; js "biking"; js "ride"; js "rode"; js "cycling"]);
    (js "swimming", [js "swim"; js "swam"; js "swimming"]);
    (js "elliptical", [js "elliptical"]);
    (js "rowing", [js "row"; js "rowing"]);
    (js "yoga", [js "yoga"]) ].

(** The two nested [for] loops: the label of the first entry one of whose
    aliases is found. *)
Fixpoint first_label (entries : list (jsstring * list jsstring)) (t : jsstring)
  : option jsstring :=
  match entries with
  | [] => None
  | (label, aliases) :: rest =>
      if existsb (fun a => test (Patterns.whole_word a) t) aliases
      then Some label
      else first_label rest t
  end.

Definition activityType (tw : Tweet) : jsstring :=
  if negb (eqb_str (source tw) (js "completed_event")) then js "unknown"
  else
    let t := toLowerCase (text tw) in
    match first_label activity_map t with
    | Some label => label
    | None =>
        match match_ t Patterns.completed_what with
        | Some m => group m 1
        | None => js "unknown"
        end
    end.

Definition distance (tw : Tweet) : number :=
  if negb (eqb_str (source tw) (js "completed_event")) then Num 0
  else
    let t := toLowerCase (text tw) in
    match match_ t Patterns.miles with
    | Some m => parseFloat (group m 1)
    | None =>
        match match_ t Patterns.kilometers with
        | Some m => num_div (parseFloat (group m 1)) (1609 # 1000)%Q
        | None => Num 0
        end
    end.

(** A tweet built from a literal, for the examples. *)
Definition tweet_of (s : string) : Tweet := new_Tweet (Some (js s)) [].
Arguments tweet_of s%_string.

(** ** Notions used to state the properties *)

(** Letters and digits. *)
Definition is_alnum (c : cu) : bool := is_upper c || is_lower c || is_digit c.

(** The number of alphanumeric characters of a string. *)
Definition alnum_count (s : jsstring) : nat := length (filter is_alnum s).

(** A string made of white space only. *)
Definition all_white (w : jsstring) : Prop := Forall (fun c => is_white c = true) w.

(** [x] lies within [tol] of [center]. *)
Definition within (x : number) (center tol : Q) : bool :=
  match x with
  | Num q => Qle_bool (Qabs (q - center)) tol
  | NaN => false
  end.

(** What it means for a pattern to match between two positions of a
    subject, stated without reference to the order of the search. *)
Inductive Matches : regex -> pos -> pos -> Prop :=
| M_Eps z : Matches Eps z z
| M_Chr p c bef aft :
    p c = true -> Matches (Chr p) (Pos bef (c :: aft)) (Pos (c :: bef) aft)
| M_Seq r1 r2 z z1 z2 :
    Matches r1 z z1 -> Matches r2 z1 z2 -> Matches (Seq r1 r2) z z2
| M_AltL r1 r2 z z' : Matches r1 z z' -> Matches (Alt r1 r2) z z'
| M_AltR r1 r2 z z' : Matches r2 z z' -> Matches (Alt r1 r2) z z'
| M_Star0 r z : Matches (Star r) z z
| M_StarS r z z1 z2 :
    Matches r z z1 -> length (after z1) < length (after z) ->
    Matches (Star r) z1 z2 -> Matches (Star r) z z2
| M_Bol aft : Matches Bol (Pos [] aft) (Pos [] aft)
| M_Eol bef : Matches Eol (Pos bef []) (Pos bef [])
| M_WordB z : at_boundary z = true -> Matches WordB z z
| M_Group i r z z' : Matches r z z' -> Matches (Group i r) z z'.

(** The pattern matches somewhere in the subject. *)
Definition MatchesIn (r : regex) (s : jsstring) : Prop :=
  exists pre post z', s = pre ++ post /\ Matches r (Pos (rev pre) post) z'.

(** Every match of the pattern gives a value to group [i]. *)
Fixpoint sets_group (i : nat) (r : regex) : bool :=
  match r with
  | Group j r1 => Nat.eqb i j || sets_group i r1
  | Seq r1 r2 => sets_group i r1 || sets_group i r2
  | Alt r1 r2 => sets_group i r1 && sets_group i r2
  | _ => false
  end.

Definition all_digits (w : jsstring) : Prop := Forall (fun c => is_digit c = true) w.

(** An integer part and a fraction part that together spell what
    [(\d+(?:\.\d+)?)] can match: digits, then nothing or a point and
    more digits. *)
Definition decimal_literal (ip fp : jsstring) : Prop :=
  ip <> [] /\ all_digits ip /\
  (fp = [] \/ exists d, fp = 46%N :: d /\ d <> [] /\ all_digits d).

(** The string does not go on with a word character. *)
Definition not_word_start (post : jsstring) : Prop :=
  match post with [] => True | c :: _ => is_word c = false end.

(** The string does not end with a word character. *)
Definition not_word_end (pre : jsstring) : Prop :=
  match rev pre with [] => True | c :: _ => is_word c = false end.

(** The text holds a decimal number, then any amount of white space
    (none included), then mi, mile or miles, and no word character right
    after the unit. *)
Definition miles_shape (t : jsstring) : Prop :=
  exists pre ip fp ws u post,
    t = pre ++ ip ++ fp ++ ws ++ u ++ post /\
    decimal_literal ip fp /\ all_white ws /\
    (u = js "mi" \/ u = js "mile" \/ u = js "miles") /\
    not_word_start post.

(** The word or phrase [a] occurs in [s] as a whole word: no word
    character right before it and none right after it. *)
Definition occurs_as_word (a s : jsstring) : Prop :=
  exists pre post, s = pre ++ a ++ post /\ not_word_end pre /\ not_word_start post.

(** [a] begins and ends with a word character. *)
Definition word_ends (a : jsstring) : bool :=
  match a with x :: _ => is_word x | [] => false end &&
  match rev a with y :: _ => is_word y | [] => false end.

(** One of the aliases of a table entry occurs in [s] as a whole word. *)
Definition entry_occurs (e : jsstring * list jsstring) (s : jsstring) : Prop :=
  exists a, In a (snd e) /\ occurs_as_word a s.

(** Every alias of the table begins and ends with a word character. *)
Definition table_ok (entries : list (jsstring * list jsstring)) : bool :=
  forallb (fun e => forallb word_ends (snd e)) entries.

(** The Normalizer: [stripped] of the tweet made from a text. *)
Definition normalize (s : jsstring) : jsstring := stripped (new_Tweet (Some s) []).

Definition starts_white (s : jsstring) : bool :=
  match s with c :: _ => is_white c | [] => false end.

(** White space has been collapsed: every white-space character is a
    space and is not followed by another. *)
Fixpoint collapsed (s : jsstring) : bool :=
  match s with
  | [] => true
  | c :: s' =>
      (if is_white c then (c =? 32)%N && negb (starts_white s') else true)
      && collapsed s'
  end.

(** The white space that a string begins with. *)
Fixpoint white_prefix (s : jsstring) : jsstring :=
  match s with
  | c :: s' => if is_white c then c :: white_prefix s' else []
  | [] => []
  end.

(** The string without its last character when that is a double quote. *)
Fixpoint drop_last_quote (s : jsstring) : jsstring :=
  match s with
  | [] => []
  | c :: s' =>
      match s' with
      | [] => if (34 =? c)%N then [] else [c]
      | _ :: _ => c :: drop_last_quote s'
      end
  end.

(** ** The rest of the Tweet class *)

(** [String(n)] for an array index or a length: its decimal digits. *)
Fixpoint uint_digits (d : Decimal.uint) : jsstring :=
  match d with
  | Decimal.Nil => []
  | Decimal.D0 d => 48%N :: uint_digits d
  | Decimal.D1 d => 49%N :: uint_digits d
  | Decimal.D2 d => 50%N :: uint_digits d
  | Decimal.D3 d => 51%N :: uint_digits d
  | Decimal.D4 d => 52%N :: uint_digits d
  | Decimal.D5 d => 53%N :: uint_digits d
  | Decimal.D6 d => 54%N :: uint_digits d
  | Decimal.D7 d => 55%N :: uint_digits d
  | Decimal.D8 d => 56%N :: uint_digits d
  | Decimal.D9 d => 57%N :: uint_digits d
  end.

Definition String_of_nat (n : nat) : jsstring := uint_digits (Nat.to_uint n).

Definition newline : jsstring := [10%N].
Definition dquote : jsstring := [34%N].

(** The anchor that [getHTMLTableRow] appends to the snippet. *)
Definition anchor (link : jsstring) : jsstring :=
  js " <a href=" ++ dquote ++ link ++ dquote ++ js " target=" ++ dquote ++ js "_blank"
  ++ dquote ++ js " rel=" ++ dquote ++ js "noopener" ++ dquote ++ js ">link</a>".

(** The template literal that [getHTMLTableRow] returns. *)
Definition row_template (num act linkedSnippet : jsstring) : jsstring :=
  newline ++ js "      <tr>" ++ newline
  ++ js "        <td>" ++ num ++ js "</td>" ++ newline
  ++ js "        <td>" ++ act ++ js "</td>" ++ newline
  ++ js "        <td>" ++ linkedSnippet ++ js "</td>" ++ newline
  ++ js "      </tr>" ++ newline ++ js "    ".

(** [getHTMLTableRow(rowNumber)], for the row numbers that the callers
    pass: indices of an array.  [activityType] is never null, so
    [act] is its value; [link] is truthy when it is a non-empty string. *)
Definition getHTMLTableRow (tw : Tweet) (rowNumber : nat) : jsstring :=
  let num := rowNumber + 1 in
  let act := activityType tw in
  let link := firstLink tw in
  let snippet := if written tw then writtenText tw else stripped tw in
  let linkedSnippet :=
    match link with
    | Some (c :: l) => snippet ++ anchor (c :: l)
    | _ => snippet
    end in
  row_template (String_of_nat num) act linkedSnippet.

(** ** The pages that use the class *)

(** [RUNKEEPER_TWEETS.map(t => new Tweet(t.text, t.created_at))], the
    first line of the three scripts. *)
Definition make_tweets (posts : list (jsstring * jsstring)) : list Tweet :=
  List.map (fun p => new_Tweet (Some (fst p)) (snd p)) posts.

(** *** js/descriptions.js *)

Module Descriptions.

Definition userWritten (tweets : list Tweet) : list Tweet := filter written tweets.

(** What [search] writes: [countEl.textContent], [textEl.textContent] and
    [tbody.innerHTML]. *)
Record SearchView := {
  searchCount : jsstring;
  searchText : jsstring;
  tweetTable : jsstring
}.

(** [matches.map((t, i) => t.getHTMLTableRow(i))], from index [i] on. *)
Fixpoint rows_from (i : nat) (matches : list Tweet) : list jsstring :=
  match matches with
  | [] => []
  | t :: rest => getHTMLTableRow t i :: rows_from (S i) rest
  end.

(** The constant [matches] of [search]. *)
Definition search_matches (userWritten : list Tweet) (qLower : jsstring) : list Tweet :=
  filter (fun t => includes (toLowerCase (writtenText t)) qLower) userWritten.

Definition search (userWritten : list Tweet) (queryRaw : option jsstring) : SearchView :=
  let q := trim (match queryRaw with Some s => s | None => [] end) in
  if eqb_str q [] then
    {| searchCount := js "0"; searchText := []; tweetTable := [] |}
  else
    let qLower := toLowerCase q in
    let matches := search_matches userWritten qLower in
    {| searchCount := String_of_nat (length matches);
       searchText := q;
       tweetTable := List.concat (rows_from 0 matches) |}.

End Descriptions.

(** *** js/about.js and js/activities.js *)

(** An object or a Map from strings to counts, in insertion order. *)
Abbreviation counter := (list (list N * nat)).

(** [c[k] = (c[k] ?? 0) + 1] and [m.set(k, (m.get(k) ?? 0) + 1)]: a key
    that is there keeps its place, a new key goes to the end. *)
Fixpoint bump (k : jsstring) (c : counter) : counter :=
  match c with
  | [] => [(k, 1)]
  | (k', v) :: c' =>
      if eqb_str k k' then (k', v + 1) :: c' else (k', v) :: bump k c'
  end.

(** [c[k]] and [m.get(k)]; [None] is undefined. *)
Fixpoint counter_get (k : jsstring) (c : counter) : option nat :=
  match c with
  | [] => None
  | (k', v) :: c' => if eqb_str k k' then Some v else counter_get k c'
  end.

Module About.

(** The object literal [counts] of about.js. *)
Definition counts0 : counter :=
  [ (js "completed_event", 0); (js "live_event", 0);
    (js "achievement", 0); (js "miscellaneous", 0) ].

(** [for (const t of tweets) counts[t.source] = (counts[t.source] ?? 0) + 1] *)
Definition tally (tweets : list Tweet) : counter :=
  fold_left (fun c t => bump (source t) c) tweets counts0.

Definition completed (tweets : list Tweet) : list Tweet :=
  filter (fun t => eqb_str (source t) (js "completed_event")) tweets.

Definition writtenCompleted (tweets : list Tweet) : list Tweet :=
  filter written (completed tweets).

End About.

Module Activities.

Definition completed (tweets : list Tweet) : list Tweet :=
  filter (fun t => eqb_str (source t) (js "completed_event")) tweets.

(** A row of activities.js. *)
Record ActivityRow := { type : jsstring; miles : number; dow : number }.

(** [getDay] stands for the host's [new Date(s).getDay()]. *)
Definition rows (getDay : jsstring -> number) (tweets : list Tweet) : list ActivityRow :=
  List.map (fun t => {| type := activityType t; miles := distance t;
                        dow := getDay (time t) |})
           (completed tweets).

(** [x > 0] on numbers; false for NaN. *)
Definition positive (x : number) : bool :=
  match x with
  | Num q => negb (Qle_bool q 0)
  | NaN => false
  end.

(** [r.type && r.type !== "unknown" && typeof r.miles === "number" && r.miles > 0] *)
Definition is_valid (r : ActivityRow) : bool :=
  negb (eqb_str (type r) []) && negb (eqb_str (type r) (js "unknown"))
  && positive (miles r).

Definition valid (getDay : jsstring -> number) (tweets : list Tweet) : list ActivityRow :=
  filter is_valid (rows getDay tweets).

Definition countsMap (getDay : jsstring -> number) (tweets : list Tweet) : counter :=
  fold_left (fun m r => bump (type r) m) (valid getDay tweets) [].

(** [new Set(array)]: the values in the order of their first occurrence. *)
Definition set_add (s : list jsstring) (x : jsstring) : list jsstring :=
  if existsb (eqb_str x) s then s else s ++ [x].

Definition Set_of (l : list jsstring) : list jsstring := fold_left set_add l [].

(** The number written to [#numberActivities]. *)
Definition numberActivities (getDay : jsstring -> number) (tweets : list Tweet) : nat :=
  length (Set_of (List.map type (valid getDay tweets))).

End Activities.

(** ** More notions used to state properties *)

(** The longest prefix made of characters of a class, and what follows. *)
Fixpoint take_while (p : cu -> bool) (s : jsstring) : jsstring :=
  match s with
  | c :: s' => if p c then c :: take_while p s' else []
  | [] => []
  end.

Fixpoint drop_while (p : cu -> bool) (s : jsstring) : jsstring :=
  match s with
  | c :: s' => if p c then drop_while p s' else s
  | [] => []
  end.

(** [s] without the prefix [a], when it begins with [a]. *)
Fixpoint strip_prefix (a s : jsstring) : option jsstring :=
  match a, s with
  | [], _ => Some s
  | _ :: _, [] => None
  | x :: a', y :: s' => if (x =? y)%N then strip_prefix a' s' else None
  end.

(** Group [i] does not occur in the pattern. *)
Fixpoint no_group (i : nat) (r : regex) : bool :=
  match r with
  | Group j r1 => negb (Nat.eqb i j) && no_group i r1
  | Seq r1 r2 | Alt r1 r2 => no_group i r1 && no_group i r2
  | Star r1 => no_group i r1
  | _ => true
  end.

(** The rational that a decimal literal denotes. *)
Definition decimal_value (ip fp : jsstring) : Q :=
  (inject_Z (digits_value 0 ip) +
   match fp with
   | _ :: d => Qmake (digits_value 0 d) (pow10 (length d))
   | [] => 0
   end)%Q.

(** The shape of the two distance patterns, for three spellings of a unit. *)
Definition distance_pattern (a b c : string) : regex :=
  Seq Patterns.decimal
    (Seq (Star (Chr is_white))
       (Seq (Group 2 (Alt (lit a) (Alt (lit b) (lit c)))) WordB)).

Arguments distance_pattern (a b c)%_string.

Definition unit_shape (a b c : string) (t : jsstring) : Prop :=
  exists pre ip fp ws u post,
    t = pre ++ ip ++ fp ++ ws ++ u ++ post /\
    decimal_literal ip fp /\ all_white ws /\
    (u = js a \/ u = js b \/ u = js c) /\
    not_word_start post.

Arguments unit_shape (a b c)%_string t.

(** A unit spelling: it ends with a word character and begins with a
    character that is no digit, no point and no white space. *)
Definition unit_ok (u : jsstring) : bool :=
  word_ends u &&
  match u with
  | x :: _ => negb (is_digit x) && negb (x =? 46)%N && negb (is_white x)
  | [] => false
  end.

(** A non-empty string of word characters. *)
Definition is_word_string (s : jsstring) : bool :=
  match s with [] => false | _ :: _ => forallb is_word s end.

(** The string is empty or begins with a character outside the class. *)
Definition stops (p : cu -> bool) (s : jsstring) : Prop :=
  match s with [] => True | x :: _ => p x = false end.

(** The text begins with a link: "http" or "https", "://" and a
    character that is not white space. *)
Definition link_start (s : jsstring) : Prop :=
  exists scheme x rest,
    (scheme = js "http" \/ scheme = js "https") /\ non_white x = true /\
    s = scheme ++ js "://" ++ x :: rest.

(** The number of tweets of a category. *)
Definition count_source (k : jsstring) (tweets : list Tweet) : nat :=
  length (filter (fun t => eqb_str (source t) k) tweets).

(** The number of valid rows of an activity type. *)
Definition count_type (k : jsstring) (l : list Activities.ActivityRow) : nat :=
  length (filter (fun r => eqb_str (Activities.type r) k) l).

Definition sum_counts (c : counter) : nat :=
  fold_right (fun kv n => snd kv + n) 0 c.

(** A mapping of code units that leaves white space alone and gives
    every other code unit something that starts with no white space. *)
Definition keeps_white (f : cu -> list cu) : Prop :=
  forall c, if is_white c then f c = [c]
            else exists d l, f c = d :: l /\ is_white d = false.

(** ** Characters, lower-casing and trimming *)

Lemma eqb_str_eq (a b : jsstring) : eqb_str a b = true <-> a = b.
Proof.
  revert b; induction a as [|x a IH]; intros [|y b]; simpl; split; intro H;
    try reflexivity; try discriminate.
  - apply andb_true_iff in H as [Hx Hab].
    apply N.eqb_eq in Hx. apply IH in Hab. now subst.
  - injection H as -> ->. rewrite N.eqb_refl. now apply IH.
Qed.

Lemma eqb_str_neq (a b : jsstring) : eqb_str a b = false <-> a <> b.
Proof.
  split.
  - intros H E. apply eqb_str_eq in E. congruence.
  - intro H. destruct (eqb_str a b) eqn:E; [|reflexivity].
    apply eqb_str_eq in E. contradiction.
Qed.

Ltac bounds H :=
  unfold between in H; apply andb_true_iff in H;
  let H1 := fresh "Hlo" in let H2 := fresh "Hhi" in
  destruct H as [H1 H2]; apply N.leb_le in H1, H2.

Ltac class_false :=
  unfold between; repeat apply orb_false_intro;
  first [ apply N.eqb_neq; lia
        | apply andb_false_iff; left; apply N.leb_gt; lia
        | apply andb_false_iff; right; apply N.leb_gt; lia ].

Lemma upper_not_white (c : cu) : is_upper c = true -> is_white c = false.
Proof. unfold is_upper, is_white. intro H. bounds H. class_false. Qed.

Lemma word_not_white (c : cu) : is_word c = true -> is_white c = false.
Proof.
  unfold is_word, is_upper, is_lower, is_digit, is_white. intro H.
  repeat (apply orb_true_iff in H; destruct H as [H|H]);
    [bounds H|bounds H|bounds H|apply N.eqb_eq in H]; class_false.
Qed.

Lemma white_not_word (c : cu) : is_white c = true -> is_word c = false.
Proof.
  intro H. destruct (is_word c) eqn:E; [|reflexivity].
  apply word_not_white in E. congruence.
Qed.

Lemma is_white_lower (c : cu) : is_white (lower_cu c) = is_white c.
Proof.
  unfold lower_cu. destruct (is_upper c) eqn:E; [|reflexivity].
  rewrite (upper_not_white c E). unfold is_upper, is_white in *. bounds E. class_false.
Qed.

Lemma lower_cu_not_upper (c : cu) : is_upper (lower_cu c) = false.
Proof.
  unfold lower_cu. destruct (is_upper c) eqn:E; [|assumption].
  unfold is_upper, between in *.
  apply andb_true_iff in E as [E1 E2].
  apply N.leb_le in E1, E2.
  apply andb_false_iff. right. apply N.leb_gt. lia.
Qed.

Lemma lower_units_cases (c : cu) :
  lower_units c = [lower_cu c] \/
  (c = 304%N /\ lower_units c = [105%N; 775%N]) \/
  (c = 8490%N /\ lower_units c = [107%N]).
Proof.
  unfold lower_units, lower_cu. destruct (is_upper c) eqn:E; [now left|].
  destruct (N.eqb_spec c 304) as [->|_]; [right; left; now split|].
  destruct (N.eqb_spec c 8490) as [->|_]; [right; right; now split|now left].
Qed.

Lemma toLowerCase_no_upper (s : jsstring) :
  Forall (fun c => is_upper c = false) (toLowerCase s).
Proof.
  unfold toLowerCase. apply Forall_forall. intros c Hc.
  apply in_flat_map in Hc as [x [_ Hc]].
  destruct (lower_units_cases x) as [E | [[_ E] | [_ E]]]; rewrite E in Hc.
  - destruct Hc as [<- | []]. apply lower_cu_not_upper.
  - destruct Hc as [<- | [<- | []]]; reflexivity.
  - destruct Hc as [<- | []]; reflexivity.
Qed.


Lemma alnum_not_white (c : cu) : is_alnum c = true -> is_white c = false.
Proof.
  intro H. apply word_not_white. unfold is_word. unfold is_alnum in H.
  now rewrite H.
Qed.

Lemma trimStart_Forall (P : cu -> Prop) (s : jsstring) :
  Forall P s -> Forall P (trimStart s).
Proof.
  induction 1 as [|c s Hc Hs IH]; simpl; [constructor|].
  destruct (is_white c); [assumption|now constructor].
Qed.

Lemma trim_Forall (P : cu -> Prop) (s : jsstring) :
  Forall P s -> Forall P (trim s).
Proof.
  intro H. unfold trim, trimEnd.
  apply Forall_rev, trimStart_Forall, Forall_rev, trimStart_Forall, H.
Qed.

Lemma trimStart_all_white (w : jsstring) : all_white w -> trimStart w = [].
Proof.
  induction 1 as [|c w Hc Hw IH]; simpl; [reflexivity|]. now rewrite Hc.
Qed.

Lemma trimStart_white_app (w s : jsstring) :
  all_white w -> trimStart (w ++ s) = trimStart s.
Proof.
  induction 1 as [|c w Hc Hw IH]; simpl; [reflexivity|]. now rewrite Hc.
Qed.

Lemma trimStart_app_white (s w : jsstring) :
  all_white w ->
  trimStart (s ++ w) = match trimStart s with [] => [] | _ :: _ => trimStart s ++ w end.
Proof.
  intro Hw. induction s as [|c s IH]; simpl.
  - now apply trimStart_all_white.
  - destruct (is_white c); [assumption|reflexivity].
Qed.

Lemma trimEnd_app_white (s w : jsstring) :
  all_white w -> trimEnd (s ++ w) = trimEnd s.
Proof.
  intro Hw. unfold trimEnd. rewrite rev_app_distr.
  rewrite trimStart_white_app; [reflexivity|]. now apply Forall_rev.
Qed.

Lemma trim_white_around (w1 s w2 : jsstring) :
  all_white w1 -> all_white w2 -> trim (w1 ++ s ++ w2) = trim s.
Proof.
  intros H1 H2. unfold trim.
  rewrite trimStart_white_app by assumption.
  rewrite trimStart_app_white by assumption.
  destruct (trimStart s) as [|c u]; [reflexivity|].
  now apply trimEnd_app_white.
Qed.

Lemma trimStart_flat_map (f : cu -> list cu) (s : jsstring) :
  keeps_white f ->
  trimStart (flat_map f s) = flat_map f (trimStart s).
Proof.
  intro Hf. induction s as [|c s IH]; [reflexivity|].
  cbn [flat_map trimStart]. specialize (Hf c).
  destruct (is_white c) eqn:E.
  - rewrite Hf. cbn [app trimStart]. rewrite E. exact IH.
  - destruct Hf as [d [l [Hf Hd]]]. cbn [flat_map]. rewrite Hf.
    cbn [app trimStart]. now rewrite Hd.
Qed.

Lemma rev_flat_map (f : cu -> list cu) (s : jsstring) :
  rev (flat_map f s) = flat_map (fun c => rev (f c)) (rev s).
Proof.
  induction s as [|c s IH]; [reflexivity|].
  cbn [flat_map rev]. rewrite rev_app_distr, IH, flat_map_app.
  cbn [flat_map]. now rewrite app_nil_r.
Qed.

Lemma lower_units_keeps_white : keeps_white lower_units.
Proof.
  intro c. destruct (is_white c) eqn:Ew.
  - unfold lower_units.
    destruct (is_upper c) eqn:Eu; [apply upper_not_white in Eu; congruence|].
    destruct (N.eqb_spec c 304) as [-> | _]; [discriminate|].
    destruct (N.eqb_spec c 8490) as [-> | _]; [discriminate|reflexivity].
  - destruct (lower_units_cases c) as [E | [[_ E] | [_ E]]]; rewrite E.
    + exists (lower_cu c), []. split; [reflexivity|]. now rewrite is_white_lower.
    + exists 105%N, [775%N]. now split.
    + exists 107%N, []. now split.
Qed.

Lemma rev_lower_units_keeps_white : keeps_white (fun c => rev (lower_units c)).
Proof.
  intro c. destruct (is_white c) eqn:Ew.
  - pose proof (lower_units_keeps_white c) as H. rewrite Ew in H. now rewrite H.
  - destruct (lower_units_cases c) as [E | [[_ E] | [_ E]]]; rewrite E; cbn [rev app].
    + exists (lower_cu c), []. split; [reflexivity|]. now rewrite is_white_lower.
    + exists 775%N, [105%N]. now split.
    + exists 107%N, []. now split.
Qed.

Lemma toLowerCase_trim (s : jsstring) :
  toLowerCase (trim s) = trim (toLowerCase s).
Proof.
  unfold toLowerCase, trim, trimEnd.
  rewrite (trimStart_flat_map lower_units s lower_units_keeps_white).
  rewrite (rev_flat_map lower_units (trimStart s)).
  rewrite (trimStart_flat_map _ _ rev_lower_units_keeps_white).
  rewrite rev_flat_map.
  rewrite (flat_map_ext (fun c => rev (rev (lower_units c))) lower_units)
    by (intro; apply rev_involutive).
  reflexivity.
Qed.

Lemma trimStart_suffix (s : jsstring) : exists w, s = w ++ trimStart s.
Proof.
  induction s as [|c s [w IH]]; cbn.
  - now exists [].
  - destruct (is_white c).
    + exists (c :: w). cbn. now f_equal.
    + now exists [].
Qed.

Lemma trimEnd_prefix (s : jsstring) : exists w, s = trimEnd s ++ w.
Proof.
  unfold trimEnd. destruct (trimStart_suffix (rev s)) as [w Hw].
  exists (rev w). rewrite <- rev_app_distr, <- Hw. now rewrite rev_involutive.
Qed.

Lemma trimStart_app_nonwhite (pre r : jsstring) (x : cu) :
  is_white x = false -> trimStart (pre ++ x :: r) = trimStart pre ++ x :: r.
Proof.
  intro Hx. induction pre as [|c pre IH]; cbn.
  - now rewrite Hx.
  - destruct (is_white c); [assumption|reflexivity].
Qed.

Lemma trimEnd_app_nonwhite (l post : jsstring) (y : cu) :
  is_white y = false -> trimEnd (l ++ y :: post) = l ++ y :: trimEnd post.
Proof.
  intro Hy. unfold trimEnd.
  rewrite rev_app_distr. cbn [rev]. rewrite <- app_assoc. cbn [app].
  rewrite trimStart_app_nonwhite by assumption.
  rewrite rev_app_distr. cbn [rev]. rewrite rev_involutive, <- app_assoc. reflexivity.
Qed.

Lemma trimStart_white_prefix (s : jsstring) :
  exists w, all_white w /\ s = w ++ trimStart s.
Proof.
  induction s as [|c s [w [Hw IH]]]; cbn.
  - exists []. split; [constructor|reflexivity].
  - destruct (is_white c) eqn:E.
    + exists (c :: w). split; [now constructor|]. cbn. now f_equal.
    + exists []. split; [constructor|reflexivity].
Qed.

Lemma trim_decompose (s : jsstring) :
  exists w1 w2, all_white w1 /\ all_white w2 /\ s = w1 ++ trim s ++ w2.
Proof.
  destruct (trimStart_white_prefix s) as [w1 [H1 E1]].
  destruct (trimStart_white_prefix (rev (trimStart s))) as [w2 [H2 E2]].
  exists w1, (rev w2). split; [assumption|]. split; [now apply Forall_rev|].
  unfold trim, trimEnd. rewrite <- rev_app_distr, <- E2, rev_involutive. exact E1.
Qed.

Lemma starts_white_trimStart (s : jsstring) : starts_white (trimStart s) = false.
Proof.
  induction s as [|c s IH]; cbn; [reflexivity|].
  destruct (is_white c) eqn:E; [assumption|]. cbn. exact E.
Qed.

Lemma trimStart_fixed (s : jsstring) : starts_white s = false -> trimStart s = s.
Proof. destruct s as [|c s]; cbn; [reflexivity|]. now intros ->. Qed.

Lemma trim_fixed (s : jsstring) :
  starts_white s = false -> starts_white (rev s) = false -> trim s = s.
Proof.
  intros H1 H2. unfold trim, trimEnd.
  rewrite (trimStart_fixed s H1), (trimStart_fixed (rev s) H2).
  apply rev_involutive.
Qed.

Lemma trim_trimmed (s : jsstring) :
  starts_white (trim s) = false /\ starts_white (rev (trim s)) = false.
Proof.
  unfold trim. split.
  - destruct (trimEnd_prefix (trimStart s)) as [w Hw].
    pose proof (starts_white_trimStart s) as H. rewrite Hw in H.
    destruct (trimEnd (trimStart s)); [reflexivity|exact H].
  - unfold trimEnd. rewrite rev_involutive. apply starts_white_trimStart.
Qed.

Lemma trim_idempotent (s : jsstring) : trim (trim s) = trim s.
Proof. destruct (trim_trimmed s). now apply trim_fixed. Qed.

Lemma white_prefix_trimStart (s : jsstring) : s = white_prefix s ++ trimStart s.
Proof.
  induction s as [|c s IH]; cbn; [reflexivity|].
  destruct (is_white c); cbn; [now f_equal|reflexivity].
Qed.

Lemma firstn_white_prefix (s : jsstring) :
  firstn (length (white_prefix s)) s = white_prefix s.
Proof.
  induction s as [|c s IH]; cbn; [reflexivity|].
  destruct (is_white c); cbn; [now f_equal|reflexivity].
Qed.

Lemma skipn_white_prefix (s : jsstring) :
  skipn (length (white_prefix s)) s = trimStart s.
Proof.
  induction s as [|c s IH]; cbn; [reflexivity|].
  destruct (is_white c); cbn; [assumption|reflexivity].
Qed.

Lemma length_white_prefix (s : jsstring) :
  length s = length (white_prefix s) + length (trimStart s).
Proof.
  induction s as [|c s IH]; cbn; [reflexivity|].
  destruct (is_white c); cbn; [now f_equal|reflexivity].
Qed.

Lemma trimStart_length (s : jsstring) : length (trimStart s) <= length s.
Proof. rewrite (length_white_prefix s). lia. Qed.

Lemma white_prefix_nil (s : jsstring) : starts_white s = false -> white_prefix s = [].
Proof. destruct s as [|c s]; cbn; [reflexivity|]. now intros ->. Qed.

Lemma white_prefix_all_white (s : jsstring) : all_white (white_prefix s).
Proof.
  induction s as [|c s IH]; cbn; [constructor|].
  destruct (is_white c) eqn:E; [now constructor|constructor].
Qed.

(** ** The matcher finds exactly the matches *)

Lemma flat_map_nil {A B : Type} (f : A -> list B) (l : list A) :
  (forall a, f a = []) -> flat_map f l = [].
Proof. intro H. induction l as [|a l IH]; simpl; [reflexivity|]. now rewrite H, IH. Qed.

Section StarLoop.

Variable body : state -> list state.

Lemma star_loop_fuel (n m : nat) (st : state) :
  length (after (fst st)) <= n -> length (after (fst st)) <= m ->
  star_loop body n st = star_loop body m st.
Proof.
  revert m st. induction n as [|n IH]; intros [|m] st Hn Hm; try reflexivity.
  - cbn [star_loop]. rewrite flat_map_nil; [reflexivity|].
    intro st'. destruct (Nat.ltb_spec (length (after (fst st'))) (length (after (fst st))));
      [lia|reflexivity].
  - cbn [star_loop]. rewrite flat_map_nil; [reflexivity|].
    intro st'. destruct (Nat.ltb_spec (length (after (fst st'))) (length (after (fst st))));
      [lia|reflexivity].
  - cbn [star_loop]. f_equal. apply flat_map_ext. intro st'.
    destruct (Nat.ltb_spec (length (after (fst st'))) (length (after (fst st))));
      [|reflexivity].
    apply IH; lia.
Qed.

Variable r : regex.

Lemma star_loop_sound :
  (forall st st', In st' (body st) -> Matches r (fst st) (fst st')) ->
  forall n st st', In st' (star_loop body n st) -> Matches (Star r) (fst st) (fst st').
Proof.
  intros Hbody n. induction n as [|n IH]; intros st st' Hin; cbn [star_loop] in Hin.
  - destruct Hin as [<-|[]]. constructor.
  - apply in_app_or in Hin as [Hin|[<-|[]]]; [|constructor].
    apply in_flat_map in Hin as [st1 [H1 H2]].
    destruct (Nat.ltb_spec (length (after (fst st1))) (length (after (fst st))));
      [|contradiction].
    eapply M_StarS; eauto.
Qed.

End StarLoop.

Lemma run_sound (r : regex) :
  forall st st', In st' (run r st) -> Matches r (fst st) (fst st').
Proof.
  induction r as [|p|r1 IH1 r2 IH2|r1 IH1 r2 IH2|r IH| | | |i r IH];
    intros [[bef aft] c] st' Hin; cbn [run fst snd before after] in *.
  - destruct Hin as [<-|[]]. constructor.
  - destruct aft as [|x aft]; [contradiction|].
    destruct (p x) eqn:E; [|contradiction].
    destruct Hin as [<-|[]]. now constructor.
  - apply in_flat_map in Hin as [st1 [H1 H2]].
    econstructor; [apply (IH1 _ _ H1)|apply (IH2 _ _ H2)].
  - apply in_app_or in Hin as [H|H];
      [apply M_AltL, (IH1 _ _ H)|apply M_AltR, (IH2 _ _ H)].
  - eapply (star_loop_sound (run r) r IH) in Hin. exact Hin.
  - destruct bef; [|contradiction]. destruct Hin as [<-|[]]. constructor.
  - destruct aft; [|contradiction]. destruct Hin as [<-|[]]. constructor.
  - destruct (at_boundary (Pos bef aft)) eqn:E; [|contradiction].
    destruct Hin as [<-|[]]. now constructor.
  - apply in_map_iff in Hin as [st1 [<- H1]]. constructor. apply (IH _ _ H1).
Qed.

Lemma run_complete (r : regex) (z z' : pos) :
  Matches r z z' -> forall c, exists c', In (z', c') (run r (z, c)).
Proof.
  induction 1 as [z|p x bef aft Hp|r1 r2 z z1 z2 _ IH1 _ IH2|r1 r2 z z' _ IH
                 |r1 r2 z z' _ IH|r z|r z z1 z2 _ IH1 Hlt _ IH2|aft|bef|z Hb
                 |i r z z' _ IH]; intro c; cbn [run fst snd before after].
  - exists c. now left.
  - rewrite Hp. exists c. now left.
  - destruct (IH1 c) as [c1 H1]. destruct (IH2 c1) as [c2 H2].
    exists c2. apply in_flat_map. eauto.
  - destruct (IH c) as [c' H']. exists c'. apply in_or_app. now left.
  - destruct (IH c) as [c' H']. exists c'. apply in_or_app. now right.
  - exists c. destruct (length (after z)); cbn [star_loop]; [now left|].
    apply in_or_app. right. now left.
  - destruct (IH1 c) as [c1 H1]. destruct (IH2 c1) as [c2 H2].
    exists c2. cbn [run fst] in H2.
    destruct (length (after z)) as [|n] eqn:En; [lia|].
    cbn [star_loop]. apply in_or_app. left.
    apply in_flat_map. exists (z1, c1). split; [assumption|].
    cbn [fst]. rewrite En.
    destruct (Nat.ltb_spec (length (after z1)) (S n)); [|lia].
    rewrite (star_loop_fuel (run r) n (length (after z1))); cbn [fst]; [assumption|lia|lia].
  - exists c. now left.
  - exists c. now left.
  - rewrite Hb. exists c. now left.
  - destruct (IH c) as [c' H']. eexists. apply in_map_iff.
    exists (z', c'). split; [reflexivity|assumption].
Qed.

Lemma match_at_Some (r : regex) (z : pos) (m : match_result) :
  match_at r z = Some m -> exists z', Matches r z z' /\ matched m = consumed z z'.
Proof.
  unfold match_at. destruct (run r (z, [])) as [|[z' c] l] eqn:E; [discriminate|].
  intros [= <-]. exists z'. split; [|reflexivity].
  apply (run_sound r (z, []) (z', c)). rewrite E. now left.
Qed.

Lemma match_at_None (r : regex) (z : pos) :
  match_at r z = None <-> forall z', ~ Matches r z z'.
Proof.
  split.
  - intros Hn z' Hm. destruct (run_complete r z z' Hm []) as [c' Hin].
    unfold match_at in Hn. revert Hin Hn.
    destruct (run r (z, [])) as [|[? ?] ?]; [intros []|discriminate].
  - intro H. destruct (match_at r z) as [m|] eqn:E; [|reflexivity].
    apply match_at_Some in E as [z' [Hm _]]. now apply H in Hm.
Qed.

Lemma search_Some (r : regex) (aft bef : jsstring) (m : match_result) :
  search r bef aft = Some m ->
  exists pre post, aft = pre ++ post /\ match_at r (Pos (rev pre ++ bef) post) = Some m.
Proof.
  revert bef. induction aft as [|c aft IH]; intros bef H; cbn [search] in H.
  - destruct (match_at r (Pos bef [])) eqn:E; [|discriminate].
    exists [], []. split; [reflexivity|]. cbn. now rewrite E.
  - destruct (match_at r (Pos bef (c :: aft))) eqn:E.
    + exists [], (c :: aft). split; [reflexivity|]. cbn. now rewrite E.
    + apply IH in H as [pre [post [-> H]]].
      exists (c :: pre), post. split; [reflexivity|].
      cbn [rev]. now rewrite <- app_assoc.
Qed.

Lemma search_None (r : regex) (aft bef : jsstring) :
  search r bef aft = None ->
  forall pre post, aft = pre ++ post -> match_at r (Pos (rev pre ++ bef) post) = None.
Proof.
  revert bef. induction aft as [|c aft IH]; intros bef H pre post E; cbn [search] in H.
  - destruct (match_at r (Pos bef [])) eqn:Em; [discriminate|].
    symmetry in E. apply app_eq_nil in E as [-> ->]. exact Em.
  - destruct (match_at r (Pos bef (c :: aft))) eqn:Em; [discriminate|].
    destruct pre as [|x pre]; cbn in E.
    + subst post. exact Em.
    + injection E as -> ->. cbn [rev]. rewrite <- app_assoc. now apply IH.
Qed.

(** [test] answers whether the pattern matches somewhere. *)
Theorem test_MatchesIn (r : regex) (s : jsstring) :
  test r s = true <-> MatchesIn r s.
Proof.
  unfold test, match_, MatchesIn. split.
  - destruct (search r [] s) as [m|] eqn:E; [|discriminate]. intros _.
    apply search_Some in E as [pre [post [-> E]]].
    apply match_at_Some in E as [z' [Hm _]].
    rewrite app_nil_r in Hm. eauto.
  - intros [pre [post [z' [-> Hm]]]].
    destruct (search r [] (pre ++ post)) eqn:E; [reflexivity|].
    pose proof (search_None r _ _ E pre post eq_refl) as Hn.
    rewrite app_nil_r in Hn.
    apply (proj1 (match_at_None r _) Hn) in Hm. contradiction.
Qed.

(** ** The groups that tweet.ts reads are always set *)

Lemma lookup_cons_set (i j : nat) (g : jsstring) (c : caps) :
  lookup i c <> None -> lookup i ((j, g) :: c) <> None.
Proof. cbn. destruct (Nat.eqb i j); [discriminate|trivial]. Qed.

Lemma star_loop_keeps_group (i : nat) (body : state -> list state) :
  (forall st st', In st' (body st) -> lookup i (snd st) <> None ->
                  lookup i (snd st') <> None) ->
  forall n st st', In st' (star_loop body n st) -> lookup i (snd st) <> None ->
                   lookup i (snd st') <> None.
Proof.
  intros Hbody n. induction n as [|n IH]; intros st st' Hin Hst; cbn [star_loop] in Hin.
  - destruct Hin as [<-|[]]. assumption.
  - apply in_app_or in Hin as [Hin|[<-|[]]]; [|assumption].
    apply in_flat_map in Hin as [st1 [H1 H2]].
    destruct (length (after (fst st1)) <? length (after (fst st))); [|destruct H2].
    apply (IH st1 st' H2). now apply (Hbody st st1).
Qed.

Lemma run_keeps_group (i : nat) (r : regex) :
  forall st st', In st' (run r st) -> lookup i (snd st) <> None ->
                 lookup i (snd st') <> None.
Proof.
  induction r as [|p|r1 IH1 r2 IH2|r1 IH1 r2 IH2|r IH| | | |j r IH];
    intros st st' Hin Hst; cbn [run] in Hin.
  - destruct Hin as [<-|[]]. assumption.
  - destruct (after (fst st)) as [|x aft]; [destruct Hin|].
    destruct (p x); [|destruct Hin]. destruct Hin as [<-|[]]. assumption.
  - apply in_flat_map in Hin as [st1 [H1 H2]]. eauto.
  - apply in_app_or in Hin as [H|H]; eauto.
  - apply (star_loop_keeps_group i (run r) IH _ _ _ Hin Hst).
  - destruct (before (fst st)); [|destruct Hin]. destruct Hin as [<-|[]]. assumption.
  - destruct (after (fst st)); [|destruct Hin]. destruct Hin as [<-|[]]. assumption.
  - destruct (at_boundary (fst st)); [|destruct Hin]. destruct Hin as [<-|[]]. assumption.
  - apply in_map_iff in Hin as [st1 [<- H1]]. cbn [snd].
    apply lookup_cons_set. eauto.
Qed.

Lemma run_sets_group (i : nat) (r : regex) :
  sets_group i r = true ->
  forall st st', In st' (run r st) -> lookup i (snd st') <> None.
Proof.
  induction r as [|p|r1 IH1 r2 IH2|r1 IH1 r2 IH2|r IH| | | |j r IH];
    cbn [sets_group]; intros Hs st st' Hin; try discriminate; cbn [run] in Hin.
  - apply in_flat_map in Hin as [st1 [H1 H2]].
    destruct (sets_group i r2) eqn:E2; [now apply (IH2 eq_refl st1)|].
    rewrite orb_false_r in Hs.
    apply (run_keeps_group i r2 st1 st' H2). now apply (IH1 Hs st).
  - apply andb_true_iff in Hs as [Hs1 Hs2].
    apply in_app_or in Hin as [H|H]; eauto.
  - apply in_map_iff in Hin as [st1 [<- H1]]. cbn [snd lookup].
    destruct (Nat.eqb i j) eqn:E; [discriminate|].
    cbn [orb] in Hs. now apply (IH Hs st).
Qed.

(** After a successful match, [group m i] is what the group captured. *)
Lemma match_group_set (s : jsstring) (r : regex) (m : match_result) (i : nat) :
  match_ s r = Some m -> sets_group i r = true ->
  exists g, lookup i (groups m) = Some g /\ group m i = g.
Proof.
  unfold match_. intros Hm Hs.
  apply search_Some in Hm as [pre [post [_ Hm]]].
  unfold match_at in Hm.
  destruct (run r (Pos (rev pre ++ []) post, [])) as [|[z' c] l] eqn:E; [discriminate|].
  injection Hm as <-. unfold group. cbn [groups].
  assert (H : lookup i c <> None).
  { apply (run_sets_group i r Hs (Pos (rev pre ++ []) post, []) (z', c)).
    rewrite E. now left. }
  destruct (lookup i c) as [g|]; [eauto|contradiction].
Qed.

Lemma groups_read_are_set :
  sets_group 1 Patterns.miles = true /\
  sets_group 1 Patterns.kilometers = true /\
  sets_group 1 Patterns.completed_what = true.
Proof. repeat split. Qed.

(** ** Reading matches off a pattern *)

Lemma Matches_Eps_iff (z z' : pos) : Matches Eps z z' <-> z' = z.
Proof. split; [now inversion 1|intros ->; constructor]. Qed.

Lemma Matches_Chr_iff (p : cu -> bool) (bef s : jsstring) (z' : pos) :
  Matches (Chr p) (Pos bef s) z' <->
  exists c aft, s = c :: aft /\ p c = true /\ z' = Pos (c :: bef) aft.
Proof.
  split.
  - inversion 1; subst. eauto.
  - intros [c [aft [-> [Hp ->]]]]. now constructor.
Qed.

Lemma Matches_Seq_iff (r1 r2 : regex) (z z' : pos) :
  Matches (Seq r1 r2) z z' <-> exists z1, Matches r1 z z1 /\ Matches r2 z1 z'.
Proof.
  split.
  - inversion 1; subst. eauto.
  - intros [z1 [H1 H2]]. econstructor; eauto.
Qed.

Lemma Matches_Alt_iff (r1 r2 : regex) (z z' : pos) :
  Matches (Alt r1 r2) z z' <-> Matches r1 z z' \/ Matches r2 z z'.
Proof.
  split.
  - inversion 1; subst; auto.
  - intros [H|H]; [now apply M_AltL|now apply M_AltR].
Qed.

Lemma Matches_Group_iff (i : nat) (r : regex) (z z' : pos) :
  Matches (Group i r) z z' <-> Matches r z z'.
Proof. split; [now inversion 1|now constructor]. Qed.

Lemma Matches_WordB_iff (z z' : pos) :
  Matches WordB z z' <-> z' = z /\ at_boundary z = true.
Proof.
  split.
  - inversion 1; subst. auto.
  - intros [-> H]. now constructor.
Qed.

(** A run of literal characters matches exactly itself. *)
Lemma Matches_lit_iff (a : jsstring) :
  forall bef s z',
    Matches (lit_with N.eqb a) (Pos bef s) z' <->
    exists aft, s = a ++ aft /\ z' = Pos (rev a ++ bef) aft.
Proof.
  induction a as [|c a IH]; intros bef s z'.
  - cbn. rewrite Matches_Eps_iff. split.
    + intros ->. eauto.
    + now intros [aft [-> ->]].
  - destruct a as [|c2 a].
    + cbn. rewrite Matches_Chr_iff. split.
      * intros [x [aft [-> [Hx ->]]]]. apply N.eqb_eq in Hx. subst. eauto.
      * intros [aft [-> ->]]. exists c, aft. now rewrite N.eqb_refl.
    + change (lit_with N.eqb (c :: c2 :: a))
        with (Seq (Chr (N.eqb c)) (lit_with N.eqb (c2 :: a))).
      rewrite Matches_Seq_iff. split.
      * intros [z1 [H1 H2]].
        apply Matches_Chr_iff in H1 as [x [aft [-> [Hx ->]]]].
        apply N.eqb_eq in Hx. subst x.
        apply IH in H2 as [aft' [-> ->]].
        exists aft'. split; [reflexivity|].
        cbn [rev]. now rewrite <- !app_assoc.
      * intros [aft [-> ->]].
        exists (Pos (c :: bef) ((c2 :: a) ++ aft)). split.
        -- apply Matches_Chr_iff. exists c, ((c2 :: a) ++ aft). now rewrite N.eqb_refl.
        -- apply IH. exists aft. split; [reflexivity|].
           cbn [rev]. now rewrite <- !app_assoc.
Qed.

(** A repeated character class matches exactly the runs of the class. *)
Lemma Matches_star_chr_iff (p : cu -> bool) (bef s : jsstring) (z' : pos) :
  Matches (Star (Chr p)) (Pos bef s) z' <->
  exists w aft, Forall (fun c => p c = true) w /\ s = w ++ aft /\
                z' = Pos (rev w ++ bef) aft.
Proof.
  split.
  - intro H. remember (Star (Chr p)) as r eqn:Er. remember (Pos bef s) as z eqn:Ez.
    revert bef s Ez.
    induction H as [| | | | |r z|r z z1 z2 H1 _ Hlt H2 IH| | | |]; try discriminate;
      injection Er as ->; intros bef s ->.
    + exists [], s. repeat split. constructor.
    + apply Matches_Chr_iff in H1 as [c [aft [-> [Hc ->]]]].
      destruct (IH eq_refl _ _ eq_refl) as [w [aft' [Hw [-> ->]]]].
      exists (c :: w), aft'. repeat split.
      * now constructor.
      * cbn [rev]. now rewrite <- app_assoc.
  - intros [w [aft [Hw [-> ->]]]]. revert bef.
    induction Hw as [|c w Hc Hw IH]; intro bef; [constructor|].
    apply M_StarS with (z1 := Pos (c :: bef) (w ++ aft)).
    + now constructor.
    + cbn. lia.
    + cbn [rev]. rewrite <- app_assoc. apply IH.
Qed.

Lemma Matches_plus_chr_iff (p : cu -> bool) (bef s : jsstring) (z' : pos) :
  Matches (plus (Chr p)) (Pos bef s) z' <->
  exists w aft, w <> [] /\ Forall (fun c => p c = true) w /\ s = w ++ aft /\
                z' = Pos (rev w ++ bef) aft.
Proof.
  unfold plus. rewrite Matches_Seq_iff. split.
  - intros [z1 [H1 H2]].
    apply Matches_Chr_iff in H1 as [c [aft [-> [Hc ->]]]].
    apply Matches_star_chr_iff in H2 as [w [aft' [Hw [-> ->]]]].
    exists (c :: w), aft'. repeat split.
    + discriminate.
    + now constructor.
    + cbn [rev]. now rewrite <- app_assoc.
  - intros [w [aft [Hne [Hw [-> ->]]]]].
    destruct w as [|c w]; [contradiction|]. inversion Hw; subst.
    exists (Pos (c :: bef) (w ++ aft)). split.
    + apply Matches_Chr_iff. exists c, (w ++ aft). auto.
    + apply Matches_star_chr_iff. exists w, aft. repeat split; [assumption|].
      cbn [rev]. now rewrite <- app_assoc.
Qed.

Ltac eval_rev_js :=
  repeat match goal with
  | H : context [rev (js ?s)] |- _ =>
      let v := eval vm_compute in (rev (js s)) in
      change (rev (js s)) with v in H; cbn [app] in H
  | |- context [rev (js ?s)] =>
      let v := eval vm_compute in (rev (js s)) in
      change (rev (js s)) with v; cbn [app]
  end.

Lemma boundary_after_word (c : cu) (bef aft : jsstring) :
  is_word c = true ->
  (at_boundary (Pos (c :: bef) aft) = true <-> not_word_start aft).
Proof.
  intro Hc. unfold at_boundary, word_before, word_after, not_word_start.
  cbn [before after]. rewrite Hc. destruct aft as [|x aft]; cbn.
  - tauto.
  - destruct (is_word x); cbn; split; congruence.
Qed.

Lemma boundary_before_word (x : cu) (bef aft : jsstring) :
  is_word x = true ->
  (at_boundary (Pos bef (x :: aft)) = true <->
   match bef with [] => True | c :: _ => is_word c = false end).
Proof.
  intro Hx. unfold at_boundary, word_before, word_after.
  cbn [before after]. rewrite Hx. destruct bef as [|c bef]; cbn.
  - tauto.
  - destruct (is_word c); cbn; split; congruence.
Qed.

(** ** The first match of the simple patterns *)

Lemma consumed_one (bef aft : jsstring) (c : cu) :
  consumed (Pos bef (c :: aft)) (Pos (c :: bef) aft) = [c].
Proof.
  unfold consumed. cbn [after List.length].
  replace (S (length aft) - length aft) with 1 by lia.
  reflexivity.
Qed.

Lemma run_Chr (p : cu -> bool) (bef aft : jsstring) (c : caps) :
  run (Chr p) (Pos bef aft, c) =
  match aft with
  | x :: a => if p x then [(Pos (x :: bef) a, c)] else []
  | [] => []
  end.
Proof. reflexivity. Qed.

Lemma match_at_Chr (p : cu -> bool) (bef aft : jsstring) :
  match_at (Chr p) (Pos bef aft) =
  match aft with
  | c :: _ => if p c then Some (MatchResult [c] []) else None
  | [] => None
  end.
Proof.
  unfold match_at. simpl. destruct aft as [|c aft]; [reflexivity|].
  destruct (p c); [|reflexivity]. now rewrite consumed_one.
Qed.

(** The first way in which [\s*] matches takes all the white space. *)
Lemma star_white_head (n : nat) :
  forall aft bef c,
    length aft <= n ->
    exists tl,
      star_loop (run (Chr is_white)) n (Pos bef aft, c) =
      (Pos (rev (white_prefix aft) ++ bef) (trimStart aft), c) :: tl.
Proof.
  induction n as [|n IH]; intros aft bef c Hn.
  - destruct aft; [|cbn in Hn; lia]. now exists [].
  - cbn [star_loop]. rewrite run_Chr.
    destruct aft as [|x aft]; [now exists []|].
    cbn [white_prefix trimStart]. destruct (is_white x) eqn:E.
    + cbn [flat_map fst after].
      destruct (Nat.ltb_spec (length aft) (length (x :: aft))) as [_|H];
        [|cbn in H; lia].
      destruct (IH aft (x :: bef) c) as [tl Htl]; [cbn in Hn; lia|].
      rewrite Htl. cbn [rev].
      rewrite <- (app_assoc (rev (white_prefix aft)) [x] bef). cbn [app]. eauto.
    + cbn. eauto.
Qed.

Lemma match_at_spaces (bef aft : jsstring) :
  match_at Patterns.spaces (Pos bef aft) =
  match aft with
  | x :: aft' =>
      if is_white x then Some (MatchResult (x :: white_prefix aft') []) else None
  | [] => None
  end.
Proof.
  unfold match_at, Patterns.spaces, plus.
  change (run (Seq (Chr is_white) (Star (Chr is_white))) (Pos bef aft, []))
    with (flat_map (run (Star (Chr is_white))) (run (Chr is_white) (Pos bef aft, []))).
  rewrite run_Chr.
  destruct aft as [|x aft]; [reflexivity|].
  destruct (is_white x) eqn:E; [|reflexivity].
  cbn [flat_map]. rewrite app_nil_r.
  change (run (Star (Chr is_white)) (Pos (x :: bef) aft, []))
    with (star_loop (run (Chr is_white)) (length aft) (Pos (x :: bef) aft, [])).
  destruct (star_white_head (length aft) aft (x :: bef) [] (le_n _)) as [tl ->].
  unfold consumed. cbn [after].
  replace (length (x :: aft) - length (trimStart aft))
    with (S (length (white_prefix aft)))
    by (cbn [List.length]; rewrite (length_white_prefix aft); lia).
  cbn [firstn]. now rewrite firstn_white_prefix.
Qed.

Lemma match_at_quotes (bef aft : jsstring) :
  match_at Patterns.quotes (Pos bef aft) =
  match aft with
  | c :: aft' =>
      if (34 =? c)%N &&
         (match bef with [] => true | _ :: _ => false end
          || match aft' with [] => true | _ :: _ => false end)
      then Some (MatchResult [c] []) else None
  | [] => None
  end.
Proof.
  unfold match_at, Patterns.quotes.
  cbn [run flat_map fst snd before after app].
  destruct aft as [|c aft']; [now destruct bef|].
  destruct bef as [|b bef]; cbn [run flat_map fst snd before after app];
    destruct (34 =? c)%N; cbn [andb orb flat_map app run fst snd after before];
    try reflexivity.
  - do 2 f_equal. apply consumed_one.
  - destruct aft' as [|d aft']; cbn [run flat_map fst snd before after app];
      [do 2 f_equal; apply consumed_one|reflexivity].
Qed.

(** ** Facts about [replace] *)

Section ReplaceFacts.

Variables (r : regex) (rep : jsstring).

Lemma replace_from_Forall (P : cu -> Prop) :
  Forall P rep ->
  forall aft bef k, Forall P aft -> Forall P (replace_from r rep bef aft k).
Proof.
  intros Hrep aft. induction aft as [|c aft IH]; intros bef k Haft; simpl.
  - destruct k; [|constructor]. destruct (match_at r (Pos bef [])); auto.
  - inversion Haft as [|? ? Hc Haft']; subst.
    destruct k as [|k]; [|now apply IH].
    destruct (match_at r (Pos bef (c :: aft))) as [m|].
    + destruct (length (matched m)).
      * apply Forall_app. split; [assumption|]. constructor; auto.
      * apply Forall_app. split; auto.
    + constructor; auto.
Qed.

Lemma replace_Forall (P : cu -> Prop) (s : jsstring) :
  Forall P rep -> Forall P s -> Forall P (replace s r rep).
Proof. intros. now apply replace_from_Forall. Qed.

Lemma replace_from_no_match (aft : jsstring) :
  forall bef,
    (forall pre post, aft = pre ++ post -> match_at r (Pos (rev pre ++ bef) post) = None) ->
    replace_from r rep bef aft 0 = aft.
Proof.
  induction aft as [|c aft IH]; intros bef H; cbn [replace_from].
  - pose proof (H [] [] eq_refl) as E. cbn in E. now rewrite E.
  - pose proof (H [] (c :: aft) eq_refl) as E. cbn in E. rewrite E. f_equal. apply IH.
    intros pre post ->. specialize (H (c :: pre) post eq_refl).
    cbn [rev] in H. now rewrite <- app_assoc in H.
Qed.

(** Where the pattern has no match, [replace] changes nothing. *)
Lemma replace_no_match (s : jsstring) :
  test r s = false -> replace s r rep = s.
Proof.
  unfold test, match_, replace. intro H.
  destruct (search r [] s) eqn:E; [discriminate|].
  apply replace_from_no_match. intros pre post ->.
  apply (search_None r _ _ E pre post eq_refl).
Qed.

Lemma replace_from_skip (aft : jsstring) :
  forall bef k,
    k <= length aft ->
    replace_from r rep bef aft k =
    replace_from r rep (rev (firstn k aft) ++ bef) (skipn k aft) 0.
Proof.
  induction aft as [|c aft IH]; intros bef k Hk.
  - cbn in Hk. now replace k with 0 by lia.
  - destruct k as [|k]; [reflexivity|].
    cbn [replace_from firstn skipn rev]. rewrite <- app_assoc. cbn [app].
    apply IH. cbn in Hk. lia.
Qed.

End ReplaceFacts.

Lemma replace_from_ext (r1 r2 : regex) (rep : jsstring) :
  (forall z, match_at r1 z = match_at r2 z) ->
  forall aft bef k, replace_from r1 rep bef aft k = replace_from r2 rep bef aft k.
Proof.
  intros H aft. induction aft as [|c aft IH]; intros bef k; cbn [replace_from].
  - now rewrite H.
  - destruct k; [|apply IH]. rewrite H.
    destruct (match_at r2 (Pos bef (c :: aft))) as [m|]; [|now rewrite IH].
    destruct (length (matched m)); now rewrite IH.
Qed.

Lemma run_lit_with_ext (f g : cu -> cu -> bool) (s1 s2 : jsstring) :
  Forall2 (fun a b => forall x, f a x = g b x) s1 s2 ->
  forall st, run (lit_with f s1) st = run (lit_with g s2) st.
Proof.
  induction 1 as [|a b s1 s2 Hab Hs IH]; intro st; [reflexivity|].
  destruct Hs as [|a' b' s1 s2 Hab' Hs].
  - cbn. destruct (after (fst st)); [reflexivity|]. now rewrite Hab.
  - change (lit_with f (a :: a' :: s1)) with (Seq (Chr (f a)) (lit_with f (a' :: s1))).
    change (lit_with g (b :: b' :: s2)) with (Seq (Chr (g b)) (lit_with g (b' :: s2))).
    cbn [run]. destruct (after (fst st)) as [|x aft]; [reflexivity|].
    rewrite Hab. destruct (g b x); [|reflexivity].
    cbn [flat_map]. now rewrite IH.
Qed.

(** The two spellings of the tag are one pattern under the [i] flag. *)
Lemma replace_tag2_tag1 (s rep : jsstring) :
  replace s Patterns.tag2 rep = replace s Patterns.tag1 rep.
Proof.
  unfold replace. apply replace_from_ext. intro z.
  unfold match_at, Patterns.tag1, Patterns.tag2, lit_ci.
  rewrite (run_lit_with_ext eqb_ci eqb_ci (js "#RunKeeper") (js "#Runkeeper"));
    [reflexivity|].
  repeat constructor.
Qed.

(** Deleting every match of a one-character class is a filter. *)
Lemma replace_Chr_filter (p : cu -> bool) (s : jsstring) :
  replace s (Chr p) [] = filter (fun c => negb (p c)) s.
Proof.
  unfold replace.
  enough (H : forall bef, replace_from (Chr p) [] bef s 0 = filter (fun c => negb (p c)) s)
    by apply H.
  induction s as [|c s IH]; intro bef; cbn [replace_from].
  - rewrite match_at_Chr. reflexivity.
  - rewrite match_at_Chr. cbn [filter]. destruct (p c); cbn; now rewrite IH.
Qed.

(** *** Collapsing white space *)

Lemma replace_spaces_collapsed_from (n : nat) :
  forall aft bef,
    length aft <= n ->
    collapsed (replace_from Patterns.spaces (js " ") bef aft 0) = true /\
    (starts_white aft = false ->
     starts_white (replace_from Patterns.spaces (js " ") bef aft 0) = false).
Proof.
  induction n as [|n IH]; intros aft bef Hn.
  - destruct aft; [|cbn in Hn; lia].
    cbn [replace_from]. rewrite match_at_spaces. now split.
  - destruct aft as [|x aft].
    { cbn [replace_from]. rewrite match_at_spaces. now split. }
    cbn [replace_from]. rewrite match_at_spaces.
    destruct (is_white x) eqn:E.
    + cbn [matched List.length].
      rewrite replace_from_skip by (rewrite (length_white_prefix aft); lia).
      rewrite firstn_white_prefix, skipn_white_prefix.
      destruct (IH (trimStart aft) (rev (white_prefix aft) ++ x :: bef)) as [H1 H2].
      { pose proof (trimStart_length aft). cbn in Hn. lia. }
      specialize (H2 (starts_white_trimStart aft)).
      split.
      * change (js " ") with [32%N] in *. cbn [app collapsed].
        rewrite H1, H2. reflexivity.
      * cbn [starts_white]. congruence.
    + destruct (IH aft (x :: bef)) as [H1 H2]; [cbn in Hn; lia|].
      split.
      * cbn [collapsed]. now rewrite E, H1.
      * intros _. cbn [starts_white]. exact E.
Qed.

(** After [replace(/\s+/g, " ")] white space is collapsed. *)
Lemma replace_spaces_collapsed (s : jsstring) :
  collapsed (replace s Patterns.spaces (js " ")) = true.
Proof. apply (replace_spaces_collapsed_from (length s) s [] (le_n _)). Qed.

(** On collapsed white space [replace(/\s+/g, " ")] changes nothing. *)
Lemma replace_spaces_fixed (s : jsstring) :
  collapsed s = true -> replace s Patterns.spaces (js " ") = s.
Proof.
  unfold replace. generalize (@nil N) at 1 as bef.
  induction s as [|x s IH]; intros bef H; cbn [replace_from]; rewrite match_at_spaces.
  - reflexivity.
  - cbn [collapsed] in H. apply andb_true_iff in H as [Hx Hs].
    destruct (is_white x) eqn:E.
    + apply andb_true_iff in Hx as [Hx Hn]. apply N.eqb_eq in Hx. subst x.
      apply negb_true_iff in Hn. rewrite (white_prefix_nil s Hn).
      cbn [matched List.length]. change (js " ") with [32%N]. cbn [app].
      f_equal. now apply IH.
    + f_equal. now apply IH.
Qed.

Lemma collapsed_tail (c : cu) (s : jsstring) : collapsed (c :: s) = true -> collapsed s = true.
Proof. cbn [collapsed]. intro H. now apply andb_true_iff in H as [_ H]. Qed.

Lemma collapsed_app_l (a b : jsstring) : collapsed (a ++ b) = true -> collapsed a = true.
Proof.
  induction a as [|c a IH]; [reflexivity|].
  cbn [app collapsed]. intro H. apply andb_true_iff in H as [Hc Hs].
  rewrite (IH Hs), andb_true_r.
  destruct (is_white c); [|reflexivity].
  apply andb_true_iff in Hc as [Hc Hn]. rewrite Hc. cbn.
  destruct a; [reflexivity|exact Hn].
Qed.

Lemma collapsed_trimStart (s : jsstring) : collapsed s = true -> collapsed (trimStart s) = true.
Proof.
  induction s as [|c s IH]; [reflexivity|]. intro H. cbn [trimStart].
  destruct (is_white c); [|assumption]. apply IH. now apply collapsed_tail in H.
Qed.

Lemma collapsed_trim (s : jsstring) : collapsed s = true -> collapsed (trim s) = true.
Proof.
  intro H. unfold trim. apply collapsed_trimStart in H.
  destruct (trimEnd_prefix (trimStart s)) as [w Hw]. rewrite Hw in H.
  now apply collapsed_app_l in H.
Qed.

(** *** Stripping the quotes *)

Lemma replace_quotes_inner (aft : jsstring) :
  forall b bef, replace_from Patterns.quotes [] (b :: bef) aft 0 = drop_last_quote aft.
Proof.
  induction aft as [|c aft IH]; intros b bef; cbn [replace_from];
    rewrite match_at_quotes; [reflexivity|].
  cbn [orb drop_last_quote]. destruct aft as [|d aft].
  - destruct (34 =? c)%N; cbn [andb matched List.length app replace_from].
    + now rewrite match_at_quotes.
    + now rewrite match_at_quotes.
  - rewrite andb_false_r. f_equal. apply IH.
Qed.

Lemma replace_quotes (s : jsstring) :
  replace s Patterns.quotes [] =
  match s with
  | [] => []
  | c :: s' => if (34 =? c)%N then drop_last_quote s' else c :: drop_last_quote s'
  end.
Proof.
  unfold replace. destruct s as [|c s]; cbn [replace_from]; rewrite match_at_quotes;
    [reflexivity|].
  cbn [orb]. rewrite andb_true_r. destruct (34 =? c)%N.
  - cbn [matched List.length app]. apply replace_quotes_inner.
  - f_equal. apply replace_quotes_inner.
Qed.

Lemma drop_last_quote_prefix (s : jsstring) : exists w, s = drop_last_quote s ++ w.
Proof.
  induction s as [|c s [w IH]]; [now exists []|].
  cbn [drop_last_quote]. destruct s as [|d s].
  - destruct (34 =? c)%N; [now exists [c]|now exists []].
  - exists w. cbn [app]. now f_equal.
Qed.

Lemma collapsed_replace_quotes (s : jsstring) :
  collapsed s = true -> collapsed (replace s Patterns.quotes []) = true.
Proof.
  intro H. rewrite replace_quotes. destruct s as [|c s]; [reflexivity|].
  destruct (drop_last_quote_prefix s) as [w Hw].
  destruct (34 =? c)%N.
  - apply collapsed_tail in H. rewrite Hw in H. now apply collapsed_app_l in H.
  - apply (collapsed_app_l (c :: drop_last_quote s) w). cbn [app]. now rewrite <- Hw.
Qed.

(** ** The constructor *)

(** C10: white space before and after the raw text changes none of the
    derived outputs, because the constructor trims the text first. *)
Theorem C10_outer_white_space_ignored (s w1 w2 tweet_time : jsstring) :
  all_white w1 -> all_white w2 ->
  let a := new_Tweet (Some (w1 ++ s ++ w2)) tweet_time in
  let b := new_Tweet (Some s) tweet_time in
  source a = source b /\ written a = written b /\
  writtenText a = writtenText b /\ activityType a = activityType b /\
  distance a = distance b.
Proof.
  intros H1 H2 a b.
  assert (E : a = b).
  { unfold a, b, new_Tweet. now rewrite trim_white_around. }
  rewrite E. repeat split.
Qed.

Lemma C10_witness :
  source (tweet_of "  Just completed a run ") = js "completed_event" /\
  startsWith (toLowerCase (js "  Just completed a run ")) (js "just completed") = false /\
  source (tweet_of "  Just completed a run ") = source (tweet_of "Just completed a run") /\
  written (tweet_of "  Just completed a run ") = written (tweet_of "Just completed a run") /\
  writtenText (tweet_of "  Just completed a run ") = writtenText (tweet_of "Just completed a run") /\
  activityType (tweet_of "  Just completed a run ") = activityType (tweet_of "Just completed a run") /\
  distance (tweet_of "  Just completed a run ") = distance (tweet_of "Just completed a run").
Proof.
  split; [vm_compute; reflexivity|].
  split; [vm_compute; reflexivity|].
  apply (C10_outer_white_space_ignored (js "Just completed a run") (js "  ") (js " ") []);
    unfold all_white; repeat constructor.
Defined.

(** ** The Normalizer *)

(** The normalized text is trimmed and its white space is collapsed. *)
Lemma stripped_collapsed (t : Tweet) : collapsed (stripped t) = true.
Proof.
  unfold stripped. apply collapsed_trim, collapsed_replace_quotes, replace_spaces_collapsed.
Qed.

Lemma stripped_trimmed (t : Tweet) :
  starts_white (stripped t) = false /\ starts_white (rev (stripped t)) = false.
Proof. unfold stripped. apply trim_trimmed. Qed.

(** A text that is trimmed and collapsed and holds nothing to strip is
    its own normal form. *)
Lemma normalize_fixed (u : jsstring) :
  starts_white u = false -> starts_white (rev u) = false -> collapsed u = true ->
  test Patterns.tag1 u = false -> test Patterns.url u = false ->
  test Patterns.via u = false -> test Patterns.quotes u = false ->
  normalize u = u.
Proof.
  intros H1 H2 Hc Htag Hurl Hvia Hq.
  unfold normalize, stripped. cbn [new_Tweet text].
  rewrite (trim_fixed u H1 H2).
  rewrite (replace_no_match Patterns.tag1 [] u Htag).
  rewrite replace_tag2_tag1, (replace_no_match Patterns.tag1 [] u Htag).
  rewrite (replace_no_match Patterns.url [] u Hurl).
  rewrite (replace_no_match Patterns.via [] u Hvia).
  rewrite (trim_fixed u H1 H2).
  rewrite (replace_spaces_fixed u Hc).
  rewrite (replace_no_match Patterns.quotes [] u Hq).
  apply (trim_fixed u H1 H2).
Qed.

(** Normalizing twice is not normalizing once: one quote is stripped at
    each end on every pass. *)
Lemma C6_counterexample :
  normalize (normalize ([34; 34]%N ++ js "a" ++ [34; 34]%N)) <>
  normalize ([34; 34]%N ++ js "a" ++ [34; 34]%N).
Proof. vm_compute. discriminate. Qed.

(** The removals can also put together a tag, a link or an attribution
    that a second pass then removes. *)
Lemma normalize_makes_patterns :
  normalize (js "#Run#Run#runkeeperkeeperkeeper") = js "#Runkeeper" /\
  normalize (js "#Runkeeper") = [] /\
  normalize (js "htvia runkeepertp://x") = js "http://x" /\
  normalize (js "http://x") = [] /\
  normalize (js "via via runkeeper runkeeper") = js "via runkeeper" /\
  normalize (js "via runkeeper") = [].
Proof. vm_compute. repeat split. Qed.

(** C6: normalizing a normalized text changes nothing when the
    normalized text holds no tag, link or attribution and has no double
    quote at either end. *)
Theorem C6_normalize_idempotent_when_clean (s : jsstring) :
  test Patterns.tag1 (normalize s) = false ->
  test Patterns.url (normalize s) = false ->
  test Patterns.via (normalize s) = false ->
  test Patterns.quotes (normalize s) = false ->
  normalize (normalize s) = normalize s.
Proof.
  intros Htag Hurl Hvia Hq.
  destruct (stripped_trimmed (new_Tweet (Some s) [])) as [H1 H2].
  apply normalize_fixed; try assumption.
  apply stripped_collapsed.
Qed.

Lemma C6_witness :
  normalize (js "  Great   run today! #Runkeeper http://t.co/abc via @runkeeper ") =
  js "Great run today!" /\
  normalize (normalize (js "  Great   run today! #Runkeeper http://t.co/abc via @runkeeper ")) =
  normalize (js "  Great   run today! #Runkeeper http://t.co/abc via @runkeeper ").
Proof.
  split; [vm_compute; reflexivity|].
  apply (C6_normalize_idempotent_when_clean
           (js "  Great   run today! #Runkeeper http://t.co/abc via @runkeeper "));
    vm_compute; reflexivity.
Defined.

(** ** The Category Classifier *)

Lemma source_cases (t : Tweet) :
  source t = js "completed_event" \/ source t = js "live_event" \/
  source t = js "achievement" \/ source t = js "miscellaneous".
Proof.
  unfold source.
  destruct (looksCompleted _); [now left|].
  destruct (looksLive _); [now right; left|].
  destruct (looksAchievement _); [now right; right; left|now right; right; right].
Qed.

Lemma source_completed (t : Tweet) :
  looksCompleted (toLowerCase (text t)) = true -> source t = js "completed_event".
Proof. intro H. unfold source. now rewrite H. Qed.

(** A rule can fire on the trimmed text only: no rule matches this input
    as it stands, its first two characters being spaces, yet the
    constructor trims it and "i just " then starts the text. *)
Lemma C3_counterexample :
  looksCompleted (toLowerCase (js "  I just ran 5k")) = false /\
  looksLive (toLowerCase (js "  I just ran 5k")) = false /\
  looksAchievement (toLowerCase (js "  I just ran 5k")) = false /\
  source (new_Tweet (Some (js "  I just ran 5k")) []) = js "completed_event" /\
  source (new_Tweet (Some (js "  I just ran 5k")) []) <> js "miscellaneous".
Proof. vm_compute. repeat split. discriminate. Qed.

(** C3: [source] is a total function whose value is one of the four
    category literals, which are pairwise different; a tweet is
    miscellaneous when no rule matches its text, which is the input with
    the outer white space trimmed. *)
Theorem C3_source_total (tweet_text : option jsstring) (tweet_time : jsstring) :
  let t := new_Tweet tweet_text tweet_time in
  (source t = js "completed_event" \/ source t = js "live_event" \/
   source t = js "achievement" \/ source t = js "miscellaneous") /\
  (looksCompleted (toLowerCase (text t)) = false ->
   looksLive (toLowerCase (text t)) = false ->
   looksAchievement (toLowerCase (text t)) = false ->
   source t = js "miscellaneous") /\
  js "completed_event" <> js "live_event" /\
  js "completed_event" <> js "achievement" /\
  js "completed_event" <> js "miscellaneous" /\
  js "live_event" <> js "achievement" /\
  js "live_event" <> js "miscellaneous" /\
  js "achievement" <> js "miscellaneous".
Proof.
  intro t. split; [apply source_cases|].
  split.
  - intros H1 H2 H3. unfold source. now rewrite H1, H2, H3.
  - repeat split; discriminate.
Qed.

Lemma C3_witness :
  source (tweet_of "") = js "miscellaneous" /\
  source (tweet_of "lovely weather") = js "miscellaneous".
Proof.
  split.
  - apply (C3_source_total (Some (js "")) []); vm_compute; reflexivity.
  - apply (C3_source_total (Some (js "lovely weather")) []); vm_compute; reflexivity.
Defined.

(** Both rules hold of this input as it stands, the completed rule by
    the " completed a " at its start; the constructor trims the text, and
    on the trimmed text only the live rule fires. *)
Lemma C2_counterexample :
  looksCompleted (toLowerCase (js " completed a run and is running home")) = true /\
  looksLive (toLowerCase (js " completed a run and is running home")) = true /\
  source (new_Tweet (Some (js " completed a run and is running home")) []) =
  js "live_event" /\
  source (new_Tweet (Some (js " completed a run and is running home")) []) <>
  js "completed_event".
Proof. vm_compute. repeat split. discriminate. Qed.

(** C2: when a completed rule and a live rule both fire on the text of
    a tweet, the category is completed_event and not live_event.  The
    rules fire on the trimmed, lower-cased text, as [source] applies
    them. *)
Theorem C2_completed_before_live (raw tweet_time : jsstring) :
  looksCompleted (toLowerCase (trim raw)) = true ->
  looksLive (toLowerCase (trim raw)) = true ->
  source (new_Tweet (Some raw) tweet_time) = js "completed_event" /\
  source (new_Tweet (Some raw) tweet_time) <> js "live_event".
Proof.
  intros Hc _.
  assert (E : source (new_Tweet (Some raw) tweet_time) = js "completed_event")
    by now apply source_completed.
  split; [assumption|]. rewrite E. discriminate.
Qed.

Lemma C2_witness :
  source (tweet_of "Just completed a run and is running home") = js "completed_event" /\
  source (tweet_of "Just completed a run and is running home") <> js "live_event".
Proof.
  apply (C2_completed_before_live (js "Just completed a run and is running home") []);
    vm_compute; reflexivity.
Defined.

(** The rules see the text after the constructor has trimmed it: the
    final space of this text is gone before [source] looks for
    " completed a ", so only the live rule fires. *)
Lemma rules_see_trimmed_text :
  includes (toLowerCase (js "is running completed a ")) (js " completed a ") = true /\
  looksCompleted (toLowerCase (trim (js "is running completed a "))) = false /\
  source (new_Tweet (Some (js "is running completed a ")) []) = js "live_event".
Proof. vm_compute. repeat split. Qed.

(** ** The Written-Content Detector *)

Lemma remove_templates_no_upper (s : jsstring) :
  Forall (fun c => is_upper c = false) s ->
  Forall (fun c => is_upper c = false) (remove_templates s).
Proof.
  unfold remove_templates. generalize templates as ws.
  intro ws. revert s. induction ws as [|w ws IH]; intros s Hs; simpl; [assumption|].
  apply IH. apply replace_Forall; [|assumption].
  repeat constructor.
Qed.

Lemma residue_no_upper (t : Tweet) :
  Forall (fun c => is_upper c = false) (residue t).
Proof.
  unfold residue. apply trim_Forall, replace_Forall.
  - repeat constructor.
  - apply remove_templates_no_upper, toLowerCase_no_upper.
Qed.

Lemma letters_length (s : jsstring) :
  Forall (fun c => is_upper c = false) s ->
  length (replace s Patterns.not_alnum []) = alnum_count s.
Proof.
  intro H. unfold Patterns.not_alnum, alnum_count. rewrite replace_Chr_filter.
  f_equal. induction H as [|c s Hc Hs IH]; simpl; [reflexivity|].
  unfold is_alnum at 1. rewrite Hc, negb_involutive. simpl.
  now rewrite IH.
Qed.

Lemma written_threshold (t : Tweet) :
  written t = (3 <=? alnum_count (residue t)).
Proof.
  unfold written. now rewrite letters_length by apply residue_no_upper.
Qed.

Lemma filter_alnum_white (w : jsstring) : all_white w -> filter is_alnum w = [].
Proof.
  induction 1 as [|c w Hc Hw IH]; cbn; [reflexivity|].
  destruct (is_alnum c) eqn:E; [|assumption].
  apply alnum_not_white in E. congruence.
Qed.

Lemma alnum_count_trim (s : jsstring) : alnum_count (trim s) = alnum_count s.
Proof.
  unfold alnum_count. destruct (trim_decompose s) as [w1 [w2 [H1 [H2 E]]]].
  rewrite E at 2. rewrite !filter_app.
  now rewrite (filter_alnum_white w1 H1), (filter_alnum_white w2 H2), app_nil_r.
Qed.

Lemma replace_spaces_alnum_from (n : nat) :
  forall aft bef,
    length aft <= n ->
    filter is_alnum (replace_from Patterns.spaces (js " ") bef aft 0) =
    filter is_alnum aft.
Proof.
  induction n as [|n IH]; intros aft bef Hn.
  - destruct aft; [|cbn in Hn; lia].
    cbn [replace_from]. now rewrite match_at_spaces.
  - destruct aft as [|x aft].
    { cbn [replace_from]. now rewrite match_at_spaces. }
    cbn [replace_from]. rewrite match_at_spaces.
    destruct (is_white x) eqn:E.
    + cbn [matched List.length].
      rewrite replace_from_skip by (rewrite (length_white_prefix aft); lia).
      rewrite firstn_white_prefix, skipn_white_prefix.
      change (js " ") with [32%N]. cbn [app filter].
      replace (is_alnum 32) with false by reflexivity.
      rewrite IH by (pose proof (trimStart_length aft); cbn in Hn; lia).
      destruct (is_alnum x) eqn:Ex; [apply alnum_not_white in Ex; congruence|].
      rewrite (white_prefix_trimStart aft) at 2. rewrite filter_app.
      now rewrite (filter_alnum_white _ (white_prefix_all_white aft)).
    + cbn [filter]. rewrite IH by (cbn in Hn; lia). reflexivity.
Qed.

(** Collapsing the white space and trimming, the last steps before the
    count, leave the letters and digits as they are. *)
Lemma alnum_count_residue (t : Tweet) :
  alnum_count (residue t) = alnum_count (remove_templates (toLowerCase (stripped t))).
Proof.
  unfold residue. rewrite alnum_count_trim. unfold alnum_count, replace.
  now rewrite (replace_spaces_alnum_from _ _ [] (le_n _)).
Qed.

(** C4: a tweet is user-written exactly when at least 3 letters and
    digits remain after normalization, lower-casing and removal of the
    template vocabulary; 2 remaining give false and 3 give true. *)
Theorem C4_written_threshold (tweet_text : option jsstring) (tweet_time : jsstring) :
  let t := new_Tweet tweet_text tweet_time in
  let remaining := alnum_count (remove_templates (toLowerCase (stripped t))) in
  written t = (3 <=? remaining) /\
  (remaining = 2 -> written t = false) /\
  (remaining = 3 -> written t = true).
Proof.
  intros t remaining. unfold remaining.
  rewrite written_threshold, alnum_count_residue.
  repeat split; intros ->; reflexivity.
Qed.

Lemma C4_witness :
  (alnum_count (remove_templates (toLowerCase (normalize (js "Just posted a run k")))) = 2 /\
   written (tweet_of "Just posted a run k") = false) /\
  (alnum_count (remove_templates (toLowerCase (normalize (js "Just posted a run ok")))) = 3 /\
   written (tweet_of "Just posted a run ok") = true).
Proof.
  split; (split; [vm_compute; reflexivity|]).
  - apply (C4_written_threshold (Some (js "Just posted a run k")) []).
    vm_compute; reflexivity.
  - apply (C4_written_threshold (Some (js "Just posted a run ok")) []).
    vm_compute; reflexivity.
Defined.

(** C5: writtenText is empty when the tweet is not user-written and is
    the normalized text, neither lower-cased nor stripped of template
    words, when it is. *)
Theorem C5_writtenText (s tweet_time : jsstring) :
  let t := new_Tweet (Some s) tweet_time in
  (written t = false -> writtenText t = []) /\
  (written t = true -> writtenText t = normalize s).
Proof.
  intro t. unfold writtenText. split; intros ->; reflexivity.
Qed.

Lemma C5_witness :
  writtenText (tweet_of "Just posted a run") = [] /\
  writtenText (tweet_of "Just posted a RUN - Legs are tired #Runkeeper") =
  js "Just posted a RUN - Legs are tired".
Proof.
  split.
  - apply (proj1 (C5_writtenText (js "Just posted a run") [])).
    vm_compute; reflexivity.
  - transitivity (normalize (js "Just posted a RUN - Legs are tired #Runkeeper")).
    + apply (proj2 (C5_writtenText (js "Just posted a RUN - Legs are tired #Runkeeper") [])).
      vm_compute; reflexivity.
    + vm_compute; reflexivity.
Defined.

(** ** The Activity/Distance Extractor *)

Lemma activityType_gate (t : Tweet) :
  source t <> js "completed_event" -> activityType t = js "unknown".
Proof.
  intro H. unfold activityType.
  apply eqb_str_neq in H. now rewrite H.
Qed.

Lemma distance_gate (t : Tweet) :
  source t <> js "completed_event" -> distance t = Num 0.
Proof.
  intro H. unfold distance.
  apply eqb_str_neq in H. now rewrite H.
Qed.

(** C1: whenever the category of a tweet is not completed_event, its
    activity type is "unknown" and its distance is 0, whatever the text
    says. *)
Theorem C1_not_completed_unknown_zero
  (tweet_text : option jsstring) (tweet_time : jsstring) :
  source (new_Tweet tweet_text tweet_time) <> js "completed_event" ->
  activityType (new_Tweet tweet_text tweet_time) = js "unknown" /\
  distance (new_Tweet tweet_text tweet_time) = Num 0.
Proof.
  intro H. split; [now apply activityType_gate | now apply distance_gate].
Qed.

(** The example of C1: "is running a marathon today!" is a live event
    and yields unknown and 0. *)
Lemma C1_witness :
  source (tweet_of "is running a marathon today!") = js "live_event" /\
  activityType (tweet_of "is running a marathon today!") = js "unknown" /\
  distance (tweet_of "is running a marathon today!") = Num 0.
Proof.
  split; [vm_compute; reflexivity|].
  apply (C1_not_completed_unknown_zero (Some (js "is running a marathon today!")) []).
  vm_compute. discriminate.
Defined.

(** *** Whole-word occurrences *)

Lemma Matches_whole_word_iff (a bef s : jsstring) :
  (exists z', Matches (Patterns.whole_word a) (Pos bef s) z') <->
  at_boundary (Pos bef s) = true /\
  exists aft, s = a ++ aft /\ at_boundary (Pos (rev a ++ bef) aft) = true.
Proof.
  unfold Patterns.whole_word. split.
  - intros [z' H].
    apply Matches_Seq_iff in H as [z1 [H1 H]].
    apply Matches_WordB_iff in H1 as [-> Hb1].
    apply Matches_Seq_iff in H as [z2 [H2 H]].
    apply Matches_lit_iff in H2 as [aft [-> ->]].
    apply Matches_WordB_iff in H as [_ Hb2].
    split; [assumption|]. eauto.
  - intros [Hb1 [aft [-> Hb2]]].
    exists (Pos (rev a ++ bef) aft).
    apply Matches_Seq_iff. exists (Pos bef (a ++ aft)).
    split; [now apply Matches_WordB_iff|].
    apply Matches_Seq_iff. exists (Pos (rev a ++ bef) aft).
    split; [apply Matches_lit_iff; eauto|now apply Matches_WordB_iff].
Qed.

(** For a word that begins and ends with a word character, the pattern
    [\bword\b] is found exactly where the word occurs as a whole word. *)
Lemma test_whole_word_iff (a s : jsstring) :
  word_ends a = true ->
  (test (Patterns.whole_word a) s = true <-> occurs_as_word a s).
Proof.
  unfold word_ends. intro Ha. apply andb_true_iff in Ha as [Hx Hy].
  destruct a as [|x a']; [discriminate|].
  destruct (rev (x :: a')) as [|y b] eqn:Er; [discriminate|].
  rewrite test_MatchesIn. unfold MatchesIn, occurs_as_word. split.
  - intros [pre [post [z' [-> H]]]].
    destruct (proj1 (Matches_whole_word_iff _ _ _) (ex_intro _ z' H))
      as [Hb1 [aft [-> Hb2]]].
    exists pre, aft. split; [reflexivity|].
    rewrite Er in Hb2. cbn [app] in Hb1, Hb2.
    apply boundary_before_word in Hb1; [|assumption].
    apply boundary_after_word in Hb2; [|assumption].
    split; assumption.
  - intros [pre [post [-> [H1 H2]]]].
    destruct (proj2 (Matches_whole_word_iff (x :: a') (rev pre) ((x :: a') ++ post)))
      as [z' Hz'].
    + split.
      * cbn [app]. now apply boundary_before_word.
      * exists post. split; [reflexivity|]. rewrite Er. cbn [app].
        now apply boundary_after_word.
    + exists pre, ((x :: a') ++ post), z'. auto.
Qed.

Lemma not_word_end_trimStart (pre : jsstring) :
  not_word_end pre -> not_word_end (trimStart pre).
Proof.
  unfold not_word_end. destruct (trimStart_suffix pre) as [w Hw].
  rewrite Hw at 1. rewrite rev_app_distr.
  destruct (rev (trimStart pre)); [trivial|]. now cbn.
Qed.

Lemma not_word_start_trimEnd (post : jsstring) :
  not_word_start post -> not_word_start (trimEnd post).
Proof.
  unfold not_word_start. destruct (trimEnd_prefix post) as [w Hw].
  rewrite Hw at 1. destruct (trimEnd post); [trivial|]. now cbn.
Qed.

(** Trimming a subject keeps the whole-word occurrences of a word. *)
Lemma occurs_as_word_trim (a s : jsstring) :
  word_ends a = true -> occurs_as_word a s -> occurs_as_word a (trim s).
Proof.
  unfold word_ends. intros Ha [pre [post [-> [H1 H2]]]].
  apply andb_true_iff in Ha as [Hx Hy].
  destruct a as [|x a']; [discriminate|].
  destruct (rev (x :: a')) as [|y b] eqn:Er; [discriminate|].
  apply word_not_white in Hx, Hy.
  exists (trimStart pre), (trimEnd post).
  split; [|split; [now apply not_word_end_trimStart|now apply not_word_start_trimEnd]].
  unfold trim. cbn [app]. rewrite trimStart_app_nonwhite by assumption.
  change (x :: a' ++ post) with ((x :: a') ++ post).
  assert (Ea : x :: a' = rev b ++ [y]).
  { rewrite <- (rev_involutive (x :: a')), Er. reflexivity. }
  rewrite Ea, <- !app_assoc. cbn [app].
  rewrite app_assoc, trimEnd_app_nonwhite by assumption.
  change (x :: a' ++ trimEnd post) with ((x :: a') ++ trimEnd post).
  rewrite Ea, <- !app_assoc. reflexivity.
Qed.

Lemma not_word_end_white_app (w pre : jsstring) :
  all_white w -> not_word_end pre -> not_word_end (w ++ pre).
Proof.
  unfold not_word_end. intros Hw H. rewrite rev_app_distr.
  destruct (rev pre) as [|c l]; cbn; [|assumption].
  apply Forall_rev in Hw. destruct (rev w) as [|c l]; [trivial|].
  inversion Hw; subst. now apply white_not_word.
Qed.

Lemma not_word_start_app_white (post w : jsstring) :
  all_white w -> not_word_start post -> not_word_start (post ++ w).
Proof.
  unfold not_word_start. intros Hw H.
  destruct post as [|c l]; cbn; [|assumption].
  destruct w as [|c l]; [trivial|]. inversion Hw; subst. now apply white_not_word.
Qed.

(** A whole-word occurrence in the trimmed subject is one in the subject. *)
Lemma occurs_as_word_untrim (a s : jsstring) :
  occurs_as_word a (trim s) -> occurs_as_word a s.
Proof.
  intros [pre [post [E [H1 H2]]]].
  destruct (trim_decompose s) as [w1 [w2 [Hw1 [Hw2 Es]]]].
  exists (w1 ++ pre), (post ++ w2).
  split; [|split; [now apply not_word_end_white_app|now apply not_word_start_app_white]].
  rewrite Es at 1. rewrite E, <- !app_assoc. reflexivity.
Qed.

(** What [activityType] looks at, the trimmed and lower-cased text, has
    the same whole-word occurrences as the lower-cased raw text. *)
Lemma occurs_in_stored_text (a raw tweet_time : jsstring) :
  word_ends a = true ->
  (occurs_as_word a (toLowerCase (text (new_Tweet (Some raw) tweet_time))) <->
   occurs_as_word a (toLowerCase raw)).
Proof.
  intro Ha. cbn [new_Tweet text]. rewrite toLowerCase_trim. split.
  - apply occurs_as_word_untrim.
  - now apply occurs_as_word_trim.
Qed.

(** *** Activity types follow the order of the table *)

Lemma existsb_entry_occurs (e : jsstring * list jsstring) (t : jsstring) :
  forallb word_ends (snd e) = true ->
  (existsb (fun a => test (Patterns.whole_word a) t) (snd e) = true <-> entry_occurs e t).
Proof.
  intro He. rewrite existsb_exists. unfold entry_occurs.
  split; intros [a [Hin Ha]]; exists a; (split; [assumption|]);
    apply (test_whole_word_iff a t); auto;
    apply (proj1 (forallb_forall _ _) He a Hin).
Qed.

Lemma first_label_None (entries : list (jsstring * list jsstring)) (t : jsstring) :
  table_ok entries = true ->
  first_label entries t = None ->
  forall k ek, nth_error entries k = Some ek -> ~ entry_occurs ek t.
Proof.
  induction entries as [|[label aliases] rest IH]; intros Hok H k ek Hk.
  - destruct k; discriminate.
  - cbn in Hok. apply andb_true_iff in Hok as [Ha Hrest].
    cbn [first_label] in H.
    destruct (existsb _ aliases) eqn:E; [discriminate|].
    destruct k as [|k]; cbn in Hk.
    + injection Hk as <-. intro Ho.
      apply (existsb_entry_occurs (label, aliases) t Ha) in Ho.
      cbn [snd] in Ho. congruence.
    + now apply (IH Hrest H k).
Qed.

Lemma first_label_Some (entries : list (jsstring * list jsstring)) (t l : jsstring) :
  table_ok entries = true ->
  first_label entries t = Some l ->
  exists k ek,
    nth_error entries k = Some ek /\ fst ek = l /\ entry_occurs ek t /\
    forall k' ek', k' < k -> nth_error entries k' = Some ek' -> ~ entry_occurs ek' t.
Proof.
  induction entries as [|[label aliases] rest IH]; intros Hok H; [discriminate|].
  cbn in Hok. apply andb_true_iff in Hok as [Ha Hrest].
  cbn [first_label] in H.
  destruct (existsb _ aliases) eqn:E.
  - injection H as <-. exists 0, (label, aliases).
    split; [reflexivity|]. split; [reflexivity|]. split.
    + now apply (existsb_entry_occurs (label, aliases) t Ha).
    + intros k' ek' Hlt. lia.
  - destruct (IH Hrest H) as [k [ek [Hk [Hl [Ho Hfirst]]]]].
    exists (S k), ek. split; [assumption|]. split; [assumption|]. split; [assumption|].
    intros [|k'] ek' Hlt Hk'; cbn in Hk'.
    + injection Hk' as <-. intro Ho'.
      apply (existsb_entry_occurs (label, aliases) t Ha) in Ho'.
      cbn [snd] in Ho'. congruence.
    + apply (Hfirst k'); [lia|assumption].
Qed.

Lemma activity_map_ok : table_ok activity_map = true.
Proof. vm_compute. reflexivity. Qed.

Lemma activity_labels_differ (i j : nat) (ei ej : jsstring * list jsstring) :
  nth_error activity_map i = Some ei -> nth_error activity_map j = Some ej ->
  fst ei = fst ej -> i = j.
Proof.
  intros Hi Hj E.
  assert (Hnd : NoDup (List.map fst activity_map)).
  { repeat constructor; cbn; intuition discriminate. }
  apply (proj1 (NoDup_nth_error _) Hnd).
  - rewrite length_map. apply nth_error_Some. congruence.
  - rewrite !nth_error_map, Hi, Hj. cbn. now f_equal.
Qed.

Lemma table_entry_ok (k : nat) (ek : jsstring * list jsstring) (a : jsstring) :
  nth_error activity_map k = Some ek -> In a (snd ek) -> word_ends a = true.
Proof.
  intros Hk Ha. apply nth_error_In in Hk.
  pose proof activity_map_ok as Hok. unfold table_ok in Hok.
  apply (proj1 (forallb_forall _ _) (proj1 (forallb_forall _ _) Hok ek Hk) a Ha).
Qed.

Lemma entry_occurs_stored (k : nat) (ek : jsstring * list jsstring)
      (raw tweet_time : jsstring) :
  nth_error activity_map k = Some ek ->
  (entry_occurs ek (toLowerCase (text (new_Tweet (Some raw) tweet_time))) <->
   entry_occurs ek (toLowerCase raw)).
Proof.
  intro Hk. unfold entry_occurs.
  split; intros [a [Ha Ho]]; exists a; (split; [assumption|]);
    apply (occurs_in_stored_text a raw tweet_time (table_entry_ok k ek a Hk Ha)); assumption.
Qed.

(** C9: in a completed event where an alias of an earlier table entry and
    an alias of a later one both occur as whole words, the activity type
    is not the later label: it is the label of the first entry of the
    table that has an alias occurring, which is the earlier entry or one
    before it. *)
Theorem C9_table_order_priority
  (raw tweet_time : jsstring) (i j : nat) (ei ej : jsstring * list jsstring) :
  source (new_Tweet (Some raw) tweet_time) = js "completed_event" ->
  nth_error activity_map i = Some ei ->
  nth_error activity_map j = Some ej ->
  i < j ->
  entry_occurs ei (toLowerCase raw) ->
  entry_occurs ej (toLowerCase raw) ->
  activityType (new_Tweet (Some raw) tweet_time) <> fst ej /\
  exists k ek,
    k <= i /\ nth_error activity_map k = Some ek /\
    entry_occurs ek (toLowerCase raw) /\
    (forall k' ek', k' < k -> nth_error activity_map k' = Some ek' ->
                    ~ entry_occurs ek' (toLowerCase raw)) /\
    activityType (new_Tweet (Some raw) tweet_time) = fst ek.
Proof.
  intros Hsrc Hi Hj Hlt Hoi Hoj.
  set (t := new_Tweet (Some raw) tweet_time) in *.
  assert (Hfirst : exists k ek,
             k <= i /\ nth_error activity_map k = Some ek /\
             entry_occurs ek (toLowerCase raw) /\
             (forall k' ek', k' < k -> nth_error activity_map k' = Some ek' ->
                             ~ entry_occurs ek' (toLowerCase raw)) /\
             activityType t = fst ek).
  { unfold activityType. rewrite Hsrc. cbn [eqb_str negb].
    replace (eqb_str (js "completed_event") (js "completed_event")) with true
      by reflexivity.
    cbn [negb].
    destruct (first_label activity_map (toLowerCase (text t))) as [l|] eqn:E.
    - destruct (first_label_Some _ _ _ activity_map_ok E)
        as [k [ek [Hk [Hl [Ho Hbefore]]]]].
      exists k, ek.
      assert (Hki : k <= i).
      { destruct (Nat.le_gt_cases k i) as [H|H]; [assumption|].
        exfalso. apply (Hbefore i ei H Hi).
        now apply (entry_occurs_stored i ei raw tweet_time Hi). }
      split; [assumption|]. split; [assumption|].
      split; [now apply (entry_occurs_stored k ek raw tweet_time Hk)|].
      split; [|now symmetry].
      intros k' ek' Hlt' Hk' Ho'. apply (Hbefore k' ek' Hlt' Hk').
      now apply (entry_occurs_stored k' ek' raw tweet_time Hk').
    - exfalso. apply (first_label_None _ _ activity_map_ok E i ei Hi).
      now apply (entry_occurs_stored i ei raw tweet_time Hi). }
  split; [|exact Hfirst].
  destruct Hfirst as [k [ek [Hki [Hk [_ [_ Hact]]]]]].
  rewrite Hact. intro Heq.
  pose proof (activity_labels_differ k j ek ej Hk Hj Heq). lia.
Qed.

Lemma C9_witness :
  activityType (tweet_of "Just completed a 5k run and bike ride") = js "running" /\
  activityType (tweet_of "Just completed a 5k run and bike ride") <> js "cycling".
Proof.
  destruct (C9_table_order_priority (js "Just completed a 5k run and bike ride") []
              0 2
              (js "running", [js "run"; js "jog"; js "jogging"])
              (js "cycling", [js "bike"; js "biked"; js "biking"; js "ride"; js "rode";
                              js "cycling"]))
    as [Hne [k [ek [Hk [Hnth [_ [_ Hact]]]]]]].
  - vm_compute; reflexivity.
  - reflexivity.
  - reflexivity.
  - lia.
  - exists (js "run"). split; [now left|].
    exists (js "just completed a 5k "), (js " and bike ride").
    split; [vm_compute; reflexivity|]. split; vm_compute; reflexivity.
  - exists (js "bike"). split; [now left|].
    exists (js "just completed a 5k run and "), (js " ride").
    split; [vm_compute; reflexivity|]. split; vm_compute; reflexivity.
  - split; [|exact Hne].
    assert (k = 0) by lia. subst k. injection Hnth as <-. exact Hact.
Defined.

(** *** Distances *)

(** A text that begins with "completed a" fires no completed rule: it
    is miscellaneous and its distance is 0. *)
Lemma C7_counterexample :
  distance (tweet_of "completed a 10 km run") = Num 0 /\
  within (distance (tweet_of "completed a 10 km run")) (6214 # 1000) (1 # 1000) = false /\
  distance (tweet_of "completed a 3 mile run") = Num 0 /\
  distance (tweet_of "completed a 3 mile run") <> Num 3.
Proof. vm_compute. repeat split. discriminate. Qed.

(** C7: "completed a 10 km run" and "completed a 3 mile run"
    are miscellaneous and have distance 0.  As completed events, "Just
    completed a 10 km run" has distance 10 / 1.609, which lies within
    0.001 of 6.215 and not of 6.214, and "Just completed a 3 mile run" has
    distance 3. *)
Theorem C7_distance_examples :
  source (tweet_of "completed a 10 km run") = js "miscellaneous" /\
  distance (tweet_of "completed a 10 km run") = Num 0 /\
  source (tweet_of "completed a 3 mile run") = js "miscellaneous" /\
  distance (tweet_of "completed a 3 mile run") = Num 0 /\
  source (tweet_of "Just completed a 10 km run") = js "completed_event" /\
  distance (tweet_of "Just completed a 10 km run") = Num (10000 # 1609) /\
  within (distance (tweet_of "Just completed a 10 km run")) (6215 # 1000) (1 # 1000) = true /\
  within (distance (tweet_of "Just completed a 10 km run")) (6214 # 1000) (1 # 1000) = false /\
  source (tweet_of "Just completed a 3 mile run") = js "completed_event" /\
  distance (tweet_of "Just completed a 3 mile run") = Num 3.
Proof. vm_compute. repeat split. Qed.

(** *** When the miles branch fires *)

Lemma Matches_decimal_iff (bef s : jsstring) (z' : pos) :
  Matches Patterns.decimal (Pos bef s) z' <->
  exists ip fp aft, decimal_literal ip fp /\ s = ip ++ fp ++ aft /\
                    z' = Pos (rev fp ++ rev ip ++ bef) aft.
Proof.
  unfold Patterns.decimal, opt, decimal_literal, all_digits.
  rewrite Matches_Group_iff, Matches_Seq_iff. split.
  - intros [z1 [H1 H2]].
    apply Matches_plus_chr_iff in H1 as [ip [aft1 [Hne [Hip [-> ->]]]]].
    apply Matches_Alt_iff in H2 as [H2|H2].
    + apply Matches_Seq_iff in H2 as [z2 [H2 H3]].
      apply Matches_Chr_iff in H2 as [c [aft2 [-> [Hc ->]]]].
      apply N.eqb_eq in Hc. subst c.
      apply Matches_plus_chr_iff in H3 as [d [aft [Hd [Hdd [-> ->]]]]].
      exists ip, (46%N :: d), aft. repeat split; try assumption.
      * right. exists d. auto.
      * cbn [rev]. now rewrite <- !app_assoc.
    + apply Matches_Eps_iff in H2 as ->.
      exists ip, [], aft1. repeat split; auto.
  - intros [ip [fp [aft [[Hne [Hip Hfp]] [-> ->]]]]].
    exists (Pos (rev ip ++ bef) (fp ++ aft)). split.
    + apply Matches_plus_chr_iff. exists ip, (fp ++ aft). auto.
    + apply Matches_Alt_iff. destruct Hfp as [->|[d [-> [Hd Hdd]]]].
      * right. apply Matches_Eps_iff. reflexivity.
      * left. apply Matches_Seq_iff.
        exists (Pos (46%N :: rev ip ++ bef) (d ++ aft)). split.
        -- apply Matches_Chr_iff. exists 46%N, (d ++ aft). auto.
        -- apply Matches_plus_chr_iff. exists d, aft. repeat split; auto.
           cbn [rev]. now rewrite <- !app_assoc.
Qed.

Lemma Matches_mile_unit_iff (bef s : jsstring) (z' : pos) :
  Matches (Group 2 (Alt (lit "mi") (Alt (lit "mile") (lit "miles")))) (Pos bef s) z' <->
  exists u aft, (u = js "mi" \/ u = js "mile" \/ u = js "miles") /\
                s = u ++ aft /\ z' = Pos (rev u ++ bef) aft.
Proof.
  unfold lit. rewrite Matches_Group_iff, !Matches_Alt_iff, !Matches_lit_iff. split.
  - intros [H|[H|H]]; destruct H as [aft [-> ->]]; eauto 7.
  - intros [u [aft [Hu [-> ->]]]]. destruct Hu as [-> | [-> | ->]]; eauto 7.
Qed.

Lemma Matches_miles_iff (bef s : jsstring) :
  (exists z', Matches Patterns.miles (Pos bef s) z') <->
  exists ip fp ws u aft,
    s = ip ++ fp ++ ws ++ u ++ aft /\ decimal_literal ip fp /\ all_white ws /\
    (u = js "mi" \/ u = js "mile" \/ u = js "miles") /\ not_word_start aft.
Proof.
  unfold Patterns.miles. split.
  - intros [z' H].
    apply Matches_Seq_iff in H as [z1 [H1 H]].
    apply Matches_decimal_iff in H1 as [ip [fp [aft1 [Hd [-> ->]]]]].
    apply Matches_Seq_iff in H as [z2 [H2 H]].
    apply Matches_star_chr_iff in H2 as [ws [aft2 [Hws [-> ->]]]].
    apply Matches_Seq_iff in H as [z3 [H3 H]].
    apply Matches_mile_unit_iff in H3 as [u [aft [Hu [-> ->]]]].
    apply Matches_WordB_iff in H as [_ Hb].
    exists ip, fp, ws, u, aft.
    split; [reflexivity|]. split; [assumption|]. split; [assumption|].
    split; [assumption|].
    destruct Hu as [-> | [-> | ->]]; eval_rev_js;
      apply boundary_after_word in Hb; auto.
  - intros [ip [fp [ws [u [aft [-> [Hd [Hws [Hu Hb]]]]]]]]].
    exists (Pos (rev u ++ rev ws ++ rev fp ++ rev ip ++ bef) aft).
    apply Matches_Seq_iff.
    exists (Pos (rev fp ++ rev ip ++ bef) (ws ++ u ++ aft)). split.
    { apply Matches_decimal_iff. exists ip, fp, (ws ++ u ++ aft). auto. }
    apply Matches_Seq_iff.
    exists (Pos (rev ws ++ rev fp ++ rev ip ++ bef) (u ++ aft)). split.
    { apply Matches_star_chr_iff. exists ws, (u ++ aft). auto. }
    apply Matches_Seq_iff.
    exists (Pos (rev u ++ rev ws ++ rev fp ++ rev ip ++ bef) aft). split.
    { apply Matches_mile_unit_iff. exists u, aft. auto. }
    apply Matches_WordB_iff. split; [reflexivity|].
    destruct Hu as [-> | [-> | ->]]; eval_rev_js;
      apply boundary_after_word; auto.
Qed.

Lemma test_miles_shape (t : jsstring) :
  test Patterns.miles t = true <-> miles_shape t.
Proof.
  rewrite test_MatchesIn. unfold MatchesIn, miles_shape. split.
  - intros [pre [post [z' [-> H]]]].
    destruct (proj1 (Matches_miles_iff (rev pre) post) (ex_intro _ z' H))
      as [ip [fp [ws [u [aft [-> H']]]]]].
    exists pre, ip, fp, ws, u, aft. auto.
  - intros [pre [ip [fp [ws [u [post [-> H]]]]]]].
    destruct (proj2 (Matches_miles_iff (rev pre) (ip ++ fp ++ ws ++ u ++ post)))
      as [z' Hz'].
    { exists ip, fp, ws, u, post. auto. }
    exists pre, (ip ++ fp ++ ws ++ u ++ post), z'. auto.
Qed.

(** A number directly followed by the unit fires the miles branch:
    [\s*] also matches no white space at all. *)
Lemma C8_counterexample :
  source (tweet_of "Just completed a 3mi run") = js "completed_event" /\
  includes (text (tweet_of "Just completed a 3mi run")) (js "3mi") = true /\
  test Patterns.miles (toLowerCase (text (tweet_of "Just completed a 3mi run"))) = true /\
  distance (tweet_of "Just completed a 3mi run") = Num 3.
Proof. vm_compute. repeat split. Qed.

(** C8: the miles pattern matches a text exactly when the text
    holds a decimal number, then zero or more white-space characters, then
    mi, mile or miles not followed by a word character; white space
    between number and unit is not required.  In a completed event whose
    lower-cased text has that shape the miles branch gives the distance. *)
Theorem C8_miles_branch :
  (forall t, test Patterns.miles t = true <-> miles_shape t) /\
  (forall tw,
      source tw = js "completed_event" ->
      miles_shape (toLowerCase (text tw)) ->
      exists m, match_ (toLowerCase (text tw)) Patterns.miles = Some m /\
                distance tw = parseFloat (group m 1)).
Proof.
  split; [exact test_miles_shape|].
  intros tw Hsrc Hshape. apply test_miles_shape in Hshape.
  unfold test in Hshape. unfold distance. rewrite Hsrc.
  replace (eqb_str (js "completed_event") (js "completed_event")) with true
    by reflexivity.
  cbn [negb].
  destruct (match_ (toLowerCase (text tw)) Patterns.miles) as [m|]; [|discriminate].
  now exists m.
Qed.

Lemma C8_witness :
  test Patterns.miles (toLowerCase (text (tweet_of "Just completed a 3mi run"))) = true /\
  exists m,
    match_ (toLowerCase (text (tweet_of "Just completed a 3mi run"))) Patterns.miles = Some m /\
    distance (tweet_of "Just completed a 3mi run") = parseFloat (group m 1).
Proof.
  assert (H : miles_shape (toLowerCase (text (tweet_of "Just completed a 3mi run")))).
  { exists (js "just completed a "), (js "3"), [], [], (js "mi"), (js " run").
    split; [vm_compute; reflexivity|].
    split; [|split; [constructor|split; [now left|reflexivity]]].
    split; [discriminate|]. split; [|now left].
    repeat constructor. }
  split.
  - apply (proj1 C8_miles_branch). exact H.
  - apply (proj2 C8_miles_branch); [vm_compute; reflexivity|exact H].
Defined.

(** ** Further properties of the Tweet class *)

(** *** The shape of the normalized text *)

Lemma collapsed_app_r (a b : jsstring) : collapsed (a ++ b) = true -> collapsed b = true.
Proof.
  induction a as [|c a IH]; [trivial|]. cbn [app]. intro H.
  apply IH. now apply collapsed_tail in H.
Qed.

Lemma collapsed_at (pre post : jsstring) (c : cu) :
  collapsed (pre ++ c :: post) = true -> is_white c = true ->
  c = 32%N /\ starts_white post = false.
Proof.
  intros H Hc. apply collapsed_app_r in H. cbn [collapsed] in H. rewrite Hc in H.
  apply andb_true_iff in H as [H _]. apply andb_true_iff in H as [H1 H2].
  apply N.eqb_eq in H1. apply negb_true_iff in H2. now split.
Qed.

(** X1: In the normalized text every white-space character is a space that
    stands between two characters that are not white space. *)
Theorem stripped_white_space (t : Tweet) (pre post : jsstring) (c : cu) :
  stripped t = pre ++ c :: post -> is_white c = true ->
  c = 32%N /\
  (exists pre' a, pre = pre' ++ [a] /\ is_white a = false) /\
  (exists b post', post = b :: post' /\ is_white b = false).
Proof.
  intros E Hc.
  pose proof (stripped_collapsed t) as Hcol.
  destruct (stripped_trimmed t) as [Hs He].
  rewrite E in Hcol, Hs, He.
  destruct (collapsed_at pre post c Hcol Hc) as [H32 Hpost].
  split; [assumption|]. split.
  - destruct (rev pre) as [|a l] eqn:Er.
    + apply (f_equal (@rev N)) in Er. rewrite rev_involutive in Er. subst pre.
      cbn in Hs. congruence.
    + exists (rev l), a.
      apply (f_equal (@rev N)) in Er. rewrite rev_involutive in Er. cbn [rev] in Er.
      split; [assumption|]. subst pre.
      rewrite <- app_assoc in Hcol. cbn [app] in Hcol.
      apply collapsed_app_r in Hcol. cbn [collapsed starts_white] in Hcol.
      destruct (is_white a); [|reflexivity].
      rewrite Hc in Hcol. cbn in Hcol. rewrite andb_false_r in Hcol. discriminate.
  - destruct post as [|b post'].
    + rewrite rev_app_distr in He. cbn in He. congruence.
    + exists b, post'. split; [reflexivity|exact Hpost].
Qed.

Lemma stripped_white_space_witness :
  32%N = 32%N /\
  (exists pre' a, js "Great" = pre' ++ [a] /\ is_white a = false) /\
  (exists b post', js "run" = b :: post' /\ is_white b = false).
Proof.
  apply (stripped_white_space (tweet_of "  Great    run #Runkeeper ") (js "Great") (js "run") 32%N);
    vm_compute; reflexivity.
Defined.

(** *** What a user-written tweet holds *)

(** Putting a space in place of matches never adds letters or digits. *)
Lemma replace_from_alnum_le (r : regex) (aft : jsstring) :
  forall bef k,
    alnum_count (replace_from r (js " ") bef aft k) <= alnum_count aft.
Proof.
  unfold alnum_count. change (js " ") with [32%N].
  induction aft as [|c aft IH]; intros bef k; cbn [replace_from].
  - destruct k; [|cbn; lia]. destruct (match_at r (Pos bef [])); cbn; lia.
  - assert (Hc : length (filter is_alnum aft) <= length (filter is_alnum (c :: aft))).
    { cbn [filter]. destruct (is_alnum c); cbn; lia. }
    destruct k as [|k]; [|specialize (IH (c :: bef) k); lia].
    destruct (match_at r (Pos bef (c :: aft))) as [m|].
    + destruct (length (matched m)) as [|j].
      * cbn [app filter]. replace (is_alnum 32) with false by reflexivity.
        specialize (IH (c :: bef) 0). destruct (is_alnum c); cbn [List.length]; lia.
      * cbn [app filter] in *. replace (is_alnum 32) with false by reflexivity.
        specialize (IH (c :: bef) j). lia.
    + cbn [filter]. specialize (IH (c :: bef) 0).
      destruct (is_alnum c); cbn [List.length]; lia.
Qed.

Lemma remove_templates_alnum_le (s : jsstring) :
  alnum_count (remove_templates s) <= alnum_count s.
Proof.
  unfold remove_templates. generalize templates as ws. intro ws. revert s.
  induction ws as [|w ws IH]; intro s; cbn [fold_left]; [lia|].
  etransitivity; [apply IH|]. apply replace_from_alnum_le.
Qed.

(** X2: The text of a user-written tweet holds, once lower-cased, at least
    3 letters and digits, so [writtenText] is empty exactly when the tweet
    is not user-written. *)
Theorem writtenText_of_written (t : Tweet) :
  (written t = true -> 3 <= alnum_count (toLowerCase (writtenText t))) /\
  (writtenText t = [] <-> written t = false).
Proof.
  assert (H : written t = true -> 3 <= alnum_count (toLowerCase (stripped t))).
  { rewrite written_threshold, alnum_count_residue. intro Hw.
    apply Nat.leb_le in Hw.
    pose proof (remove_templates_alnum_le (toLowerCase (stripped t))) as Hle.
    lia. }
  unfold writtenText. destruct (written t) eqn:Hw.
  - split; [intros _; now apply H|]. split; [|discriminate].
    intro E. specialize (H eq_refl). rewrite E in H. cbn in H. lia.
  - split; [discriminate|]. split; reflexivity.
Qed.

Lemma writtenText_of_written_witness :
  3 <= alnum_count (toLowerCase (writtenText (tweet_of "Just posted a run - so hot today"))).
Proof.
  apply (proj1 (writtenText_of_written (tweet_of "Just posted a run - so hot today"))).
  vm_compute; reflexivity.
Defined.

(** The count is taken after lower-casing: three U+0130 make a
    user-written tweet, each giving an "i", though the text itself holds
    no letter of Basic Latin. *)
Lemma written_counts_lower_case :
  written (new_Tweet (Some [304%N; 304%N; 304%N]) []) = true /\
  alnum_count (writtenText (new_Tweet (Some [304%N; 304%N; 304%N]) [])) = 0.
Proof. vm_compute. split; reflexivity. Qed.

(** *** Groups and what they capture *)

Lemma In_run_Seq (r1 r2 : regex) (st st' : state) :
  In st' (run (Seq r1 r2) st) <->
  exists st1, In st1 (run r1 st) /\ In st' (run r2 st1).
Proof. cbn [run]. apply in_flat_map. Qed.

Lemma In_run_Group (i : nat) (r : regex) (st st' : state) :
  In st' (run (Group i r) st) <->
  exists s1, In s1 (run r st) /\
             st' = (fst s1, (i, consumed (fst st) (fst s1)) :: snd s1).
Proof.
  cbn [run]. rewrite in_map_iff. split; intros [s1 [H1 H2]]; exists s1; auto.
Qed.

Lemma consumed_app (bef bef' w aft : jsstring) :
  consumed (Pos bef (w ++ aft)) (Pos bef' aft) = w.
Proof.
  unfold consumed. cbn [after]. rewrite length_app.
  replace (length w + length aft - length aft) with (length w) by lia.
  induction w as [|x w IH]; cbn; [reflexivity|now rewrite IH].
Qed.

Lemma no_group_lit (i : nat) (f : cu -> cu -> bool) (s : jsstring) :
  no_group i (lit_with f s) = true.
Proof.
  induction s as [|c s IH]; [reflexivity|].
  destruct s as [|d s]; [reflexivity|].
  change (lit_with f (c :: d :: s)) with (Seq (Chr (f c)) (lit_with f (d :: s))).
  cbn [no_group]. exact IH.
Qed.

Lemma star_loop_keeps_lookup (i : nat) (body : state -> list state) :
  (forall st st', In st' (body st) -> lookup i (snd st') = lookup i (snd st)) ->
  forall n st st', In st' (star_loop body n st) -> lookup i (snd st') = lookup i (snd st).
Proof.
  intros Hbody n. induction n as [|n IH]; intros st st' Hin; cbn [star_loop] in Hin.
  - destruct Hin as [<-|[]]. reflexivity.
  - apply in_app_or in Hin as [Hin|[<-|[]]]; [|reflexivity].
    apply in_flat_map in Hin as [st1 [H1 H2]].
    destruct (length (after (fst st1)) <? length (after (fst st))); [|destruct H2].
    rewrite (IH st1 st' H2). now apply Hbody.
Qed.

(** A pattern without group [i] leaves what group [i] captured as it is. *)
Lemma run_keeps_lookup (i : nat) (r : regex) :
  no_group i r = true ->
  forall st st', In st' (run r st) -> lookup i (snd st') = lookup i (snd st).
Proof.
  induction r as [|p|r1 IH1 r2 IH2|r1 IH1 r2 IH2|r IH| | | |j r IH];
    cbn [no_group]; intros Hn st st' Hin; cbn [run] in Hin.
  - destruct Hin as [<-|[]]. reflexivity.
  - destruct (after (fst st)) as [|x aft]; [destruct Hin|].
    destruct (p x); [|destruct Hin]. destruct Hin as [<-|[]]. reflexivity.
  - apply andb_true_iff in Hn as [Hn1 Hn2].
    apply in_flat_map in Hin as [st1 [H1 H2]].
    rewrite (IH2 Hn2 st1 st' H2). now apply IH1.
  - apply andb_true_iff in Hn as [Hn1 Hn2].
    apply in_app_or in Hin as [H|H]; [now apply IH1|now apply IH2].
  - apply (star_loop_keeps_lookup i (run r) (IH Hn) _ _ _ Hin).
  - destruct (before (fst st)); [|destruct Hin]. destruct Hin as [<-|[]]. reflexivity.
  - destruct (after (fst st)); [|destruct Hin]. destruct Hin as [<-|[]]. reflexivity.
  - destruct (at_boundary (fst st)); [|destruct Hin]. destruct Hin as [<-|[]]. reflexivity.
  - apply andb_true_iff in Hn as [Hj Hn]. apply negb_true_iff in Hj.
    apply in_map_iff in Hin as [s1 [<- H1]]. cbn [snd lookup]. rewrite Hj.
    now apply IH.
Qed.

(** The first match found by [search], with the value of a group. *)
Lemma match_head (s : jsstring) (r : regex) (m : match_result) :
  match_ s r = Some m ->
  exists pre post z' c,
    s = pre ++ post /\
    In (z', c) (run r (Pos (rev pre) post, [])) /\
    groups m = c /\ matched m = consumed (Pos (rev pre) post) z' /\
    forall pre1 post1, s = pre1 ++ post1 -> length pre1 < length pre ->
                       match_at r (Pos (rev pre1) post1) = None.
Proof.
  unfold match_.
  enough (H : forall aft bef,
             search r bef aft = Some m ->
             exists pre post z' c,
               aft = pre ++ post /\
               In (z', c) (run r (Pos (rev pre ++ bef) post, [])) /\
               groups m = c /\ matched m = consumed (Pos (rev pre ++ bef) post) z' /\
               forall pre1 post1, aft = pre1 ++ post1 -> length pre1 < length pre ->
                                  match_at r (Pos (rev pre1 ++ bef) post1) = None).
  { intro Hs. destruct (H s [] Hs) as [pre [post [z' [c [E [Hin [Hg [Hm Hfirst]]]]]]]].
    rewrite app_nil_r in Hin, Hm. exists pre, post, z', c.
    repeat split; try assumption.
    intros pre1 post1 E1 Hlt. specialize (Hfirst pre1 post1 E1 Hlt).
    now rewrite app_nil_r in Hfirst. }
  intro aft. induction aft as [|x aft IH]; intros bef Hs; cbn [search] in Hs.
  - destruct (match_at r (Pos bef [])) as [m'|] eqn:E; [|discriminate].
    injection Hs as ->. unfold match_at in E.
    destruct (run r (Pos bef [], [])) as [|[z' c] l] eqn:Er; [discriminate|].
    injection E as <-. exists [], [], z', c. cbn [rev app List.length].
    rewrite Er. repeat split; try reflexivity; [now left|]. intros; lia.
  - destruct (match_at r (Pos bef (x :: aft))) as [m'|] eqn:E.
    + injection Hs as ->. unfold match_at in E.
      destruct (run r (Pos bef (x :: aft), [])) as [|[z' c] l] eqn:Er; [discriminate|].
      injection E as <-. exists [], (x :: aft), z', c. cbn [rev app List.length].
      rewrite Er. repeat split; try reflexivity; [now left|]. intros; lia.
    + destruct (IH (x :: bef) Hs) as [pre [post [z' [c [-> [Hin [Hg [Hm Hfirst]]]]]]]].
      exists (x :: pre), post, z', c. cbn [rev]. rewrite <- !app_assoc. cbn [app].
      repeat split; try assumption.
      intros pre1 post1 E1 Hlt. destruct pre1 as [|y pre1].
      * cbn in E1. subst post1. exact E.
      * cbn in E1. injection E1 as -> E1. cbn [rev]. rewrite <- app_assoc. cbn [app].
        apply Hfirst; [assumption|cbn in Hlt; lia].
Qed.

(** *** The activity type is a word *)

Lemma is_word_string_spec (s : jsstring) :
  is_word_string s = true <-> s <> [] /\ Forall (fun c => is_word c = true) s.
Proof.
  unfold is_word_string. destruct s as [|c s].
  - split; [discriminate|now intros [H _]].
  - rewrite forallb_forall, Forall_forall. split.
    + intro H. split; [discriminate|exact H].
    + now intros [_ H].
Qed.

Lemma completed_what_group (t : jsstring) (m : match_result) :
  match_ t Patterns.completed_what = Some m ->
  is_word_string (group m 1) = true.
Proof.
  intro Hm. apply match_head in Hm as [pre [post [z' [c [_ [Hin [Hg _]]]]]]].
  unfold Patterns.completed_what in Hin.
  apply In_run_Seq in Hin as [st1 [_ Hin]].
  apply In_run_Seq in Hin as [st2 [_ Hin]].
  apply In_run_Seq in Hin as [st3 [_ Hin]].
  apply In_run_Group in Hin as [s4 [H4 E]].
  apply run_sound in H4. destruct st3 as [[bef s] c3]. cbn [fst] in *.
  apply Matches_plus_chr_iff in H4 as [w [aft [Hne [Hw [-> E4]]]]].
  rewrite E4 in E. injection E as _ ->.
  unfold group. rewrite Hg. cbn [lookup Nat.eqb]. rewrite consumed_app.
  apply is_word_string_spec. now split.
Qed.

Lemma first_label_In (entries : list (jsstring * list jsstring)) (t l : jsstring) :
  first_label entries t = Some l -> In l (List.map fst entries).
Proof.
  induction entries as [|[label aliases] rest IH]; [discriminate|].
  cbn [first_label List.map fst]. destruct (existsb _ aliases).
  - intros [= <-]. now left.
  - intro H. right. now apply IH.
Qed.

Lemma activityType_word_string (t : Tweet) : is_word_string (activityType t) = true.
Proof.
  unfold activityType.
  destruct (negb (eqb_str (source t) (js "completed_event"))); [reflexivity|].
  destruct (first_label activity_map (toLowerCase (text t))) as [l|] eqn:E.
  - apply first_label_In in E.
    assert (H : forallb is_word_string (List.map fst activity_map) = true) by reflexivity.
    apply (proj1 (forallb_forall _ _) H l E).
  - destruct (match_ (toLowerCase (text t)) Patterns.completed_what) as [m|] eqn:Em;
      [|reflexivity].
    exact (completed_what_group _ m Em).
Qed.

(** X3: The activity type is never empty and is made of word characters
    only: it is a label of the table, "unknown", or the word found after
    "completed a" or "completed an". *)
Theorem activityType_is_word (t : Tweet) :
  activityType t <> [] /\ Forall (fun c => is_word c = true) (activityType t).
Proof. apply is_word_string_spec, activityType_word_string. Qed.

(** *** The two distance patterns *)

Section DistancePattern.

Variables a b c : string.

Hypothesis units_ok :
  unit_ok (js a) = true /\ unit_ok (js b) = true /\ unit_ok (js c) = true.

Lemma unit_word_ends (u : jsstring) :
  u = js a \/ u = js b \/ u = js c -> word_ends u = true.
Proof.
  destruct units_ok as [Ha [Hb Hc]].
  intros [-> | [-> | ->]];
    match goal with H : unit_ok ?u = true |- word_ends ?u = true =>
      unfold unit_ok in H; now apply andb_true_iff in H as [H _] end.
Qed.

Lemma unit_starts (u rest : jsstring) :
  u = js a \/ u = js b \/ u = js c ->
  exists x u', u = x :: u' /\ is_digit x = false /\ x <> 46%N /\ is_white x = false.
Proof.
  destruct units_ok as [Ha [Hb Hc]].
  intros [-> | [-> | ->]];
    match goal with H : unit_ok ?u = true |- exists _ _, ?u = _ /\ _ =>
      unfold unit_ok in H; apply andb_true_iff in H as [_ H];
      destruct u as [|x u']; [discriminate|];
      apply andb_true_iff in H as [H H3]; apply andb_true_iff in H as [H1 H2];
      apply negb_true_iff in H1, H2, H3; apply N.eqb_neq in H2;
      exists x, u'; auto
    end.
Qed.

Lemma Matches_unit_iff (bef s : jsstring) (z' : pos) :
  Matches (Group 2 (Alt (lit a) (Alt (lit b) (lit c)))) (Pos bef s) z' <->
  exists u aft, (u = js a \/ u = js b \/ u = js c) /\
                s = u ++ aft /\ z' = Pos (rev u ++ bef) aft.
Proof.
  unfold lit. rewrite Matches_Group_iff, !Matches_Alt_iff, !Matches_lit_iff. split.
  - intros [H|[H|H]]; destruct H as [aft [-> ->]]; eauto 7.
  - intros [u [aft [Hu [-> ->]]]]. destruct Hu as [-> | [-> | ->]]; eauto 7.
Qed.

Lemma boundary_after_unit (u bef aft : jsstring) :
  word_ends u = true ->
  (at_boundary (Pos (rev u ++ bef) aft) = true <-> not_word_start aft).
Proof.
  unfold word_ends. intro H. apply andb_true_iff in H as [_ H].
  destruct (rev u) as [|y l]; [discriminate|]. cbn [app].
  now apply boundary_after_word.
Qed.

Lemma Matches_distance_tail_iff (bef s : jsstring) (z' : pos) :
  Matches (Seq (Star (Chr is_white))
             (Seq (Group 2 (Alt (lit a) (Alt (lit b) (lit c)))) WordB)) (Pos bef s) z' <->
  exists ws u aft,
    all_white ws /\ (u = js a \/ u = js b \/ u = js c) /\
    s = ws ++ u ++ aft /\ not_word_start aft /\
    z' = Pos (rev u ++ rev ws ++ bef) aft.
Proof.
  rewrite Matches_Seq_iff. split.
  - intros [z1 [H1 H]].
    apply Matches_star_chr_iff in H1 as [ws [aft1 [Hws [-> ->]]]].
    apply Matches_Seq_iff in H as [z2 [H2 H]].
    apply Matches_unit_iff in H2 as [u [aft [Hu [-> ->]]]].
    apply Matches_WordB_iff in H as [-> Hb].
    apply boundary_after_unit in Hb; [|now apply unit_word_ends].
    exists ws, u, aft. auto.
  - intros [ws [u [aft [Hws [Hu [-> [Hb ->]]]]]]].
    exists (Pos (rev ws ++ bef) (u ++ aft)). split.
    { apply Matches_star_chr_iff. exists ws, (u ++ aft). auto. }
    apply Matches_Seq_iff. exists (Pos (rev u ++ rev ws ++ bef) aft). split.
    { apply Matches_unit_iff. exists u, aft. auto. }
    apply Matches_WordB_iff. split; [reflexivity|].
    apply boundary_after_unit; [now apply unit_word_ends|assumption].
Qed.

Lemma Matches_distance_iff (bef s : jsstring) (z' : pos) :
  Matches (distance_pattern a b c) (Pos bef s) z' <->
  exists ip fp ws u aft,
    decimal_literal ip fp /\ all_white ws /\ (u = js a \/ u = js b \/ u = js c) /\
    s = ip ++ fp ++ ws ++ u ++ aft /\ not_word_start aft /\
    z' = Pos (rev u ++ rev ws ++ rev fp ++ rev ip ++ bef) aft.
Proof.
  unfold distance_pattern. rewrite Matches_Seq_iff. split.
  - intros [z1 [H1 H]].
    apply Matches_decimal_iff in H1 as [ip [fp [aft1 [Hd [-> ->]]]]].
    apply Matches_distance_tail_iff in H as [ws [u [aft [Hws [Hu [-> [Hb ->]]]]]]].
    exists ip, fp, ws, u, aft. auto 7.
  - intros [ip [fp [ws [u [aft [Hd [Hws [Hu [-> [Hb ->]]]]]]]]]].
    exists (Pos (rev fp ++ rev ip ++ bef) (ws ++ u ++ aft)). split.
    + apply Matches_decimal_iff. exists ip, fp, (ws ++ u ++ aft). auto.
    + apply Matches_distance_tail_iff. exists ws, u, aft. auto 7.
Qed.

(** A distance pattern is found exactly in the texts that hold a decimal
    number, any white space and one of the spellings of the unit, with no
    word character right after. *)
Lemma test_unit_shape (t : jsstring) :
  test (distance_pattern a b c) t = true <-> unit_shape a b c t.
Proof.
  rewrite test_MatchesIn. unfold MatchesIn, unit_shape. split.
  - intros [pre [post [z' [-> H]]]].
    apply Matches_distance_iff in H
      as [ip [fp [ws [u [aft [Hd [Hws [Hu [-> [Hb _]]]]]]]]]].
    exists pre, ip, fp, ws, u, aft. auto.
  - intros [pre [ip [fp [ws [u [post [-> [Hd [Hws [Hu Hb]]]]]]]]]].
    exists pre, (ip ++ fp ++ ws ++ u ++ post),
      (Pos (rev u ++ rev ws ++ rev fp ++ rev ip ++ rev pre) post).
    split; [reflexivity|]. apply Matches_distance_iff.
    exists ip, fp, ws, u, post. auto 7.
Qed.

(** Where a distance pattern is found, group 1 is the decimal number of
    the leftmost place at which the pattern matches. *)
Lemma distance_group1 (t : jsstring) (m : match_result) :
  match_ t (distance_pattern a b c) = Some m ->
  exists pre ip fp ws u post,
    t = pre ++ ip ++ fp ++ ws ++ u ++ post /\
    decimal_literal ip fp /\ all_white ws /\
    (u = js a \/ u = js b \/ u = js c) /\ not_word_start post /\
    group m 1 = ip ++ fp /\
    forall pre1 post1, t = pre1 ++ post1 -> length pre1 < length pre ->
                       forall z', ~ Matches (distance_pattern a b c) (Pos (rev pre1) post1) z'.
Proof.
  intro Hm. apply match_head in Hm as [pre [post [z' [cs [-> [Hin [Hg [_ Hfirst]]]]]]]].
  unfold distance_pattern in Hin.
  apply In_run_Seq in Hin as [st1 [H1 Hin]].
  unfold Patterns.decimal in H1. apply In_run_Group in H1 as [s1 [H1 E1]].
  apply run_sound, (M_Group 1) in H1. cbn [fst] in H1.
  apply Matches_decimal_iff in H1 as [ip [fp [aft1 [Hd [-> Ez1]]]]].
  assert (Hno : no_group 1 (Seq (Star (Chr is_white))
                  (Seq (Group 2 (Alt (lit a) (Alt (lit b) (lit c)))) WordB)) = true).
  { unfold lit. cbn [no_group Nat.eqb negb andb]. now rewrite !no_group_lit. }
  pose proof (run_keeps_lookup 1 _ Hno st1 (z', cs) Hin) as Hl.
  apply run_sound in Hin. rewrite E1 in Hin, Hl. cbn [fst snd lookup Nat.eqb] in Hin, Hl.
  rewrite Ez1 in Hin, Hl.
  apply Matches_distance_tail_iff in Hin as [ws [u [aft [Hws [Hu [-> [Hb _]]]]]]].
  exists pre, ip, fp, ws, u, aft.
  repeat (split; [first [reflexivity|assumption]|]).
  split.
  - unfold group. rewrite Hg, Hl.
    rewrite (app_assoc ip fp), consumed_app. reflexivity.
  - intros pre1 post1 E Hlt z1. apply match_at_None. now apply Hfirst.
Qed.

End DistancePattern.

(** *** Reading the number *)

Lemma take_digits_app (ip rest : jsstring) :
  all_digits ip -> stops is_digit rest -> take_digits (ip ++ rest) = (ip, rest).
Proof.
  intros Hip Hrest. induction Hip as [|x ip Hx Hip IH]; cbn [app take_digits].
  - destruct rest as [|y rest]; [reflexivity|]. cbn in Hrest.
    cbn [take_digits]. now rewrite Hrest.
  - now rewrite Hx, IH.
Qed.

Lemma digits_value_nonneg (s : jsstring) :
  forall acc, (0 <= acc)%Z -> (0 <= digits_value acc s)%Z.
Proof.
  induction s as [|x s IH]; intros acc Hacc; cbn [digits_value]; [assumption|].
  apply IH. lia.
Qed.

Lemma digits_value_acc (s : jsstring) :
  forall acc,
    digits_value acc s = (acc * Z.pos (pow10 (length s)) + digits_value 0 s)%Z.
Proof.
  induction s as [|x s IH]; intro acc; cbn [digits_value List.length pow10].
  - lia.
  - rewrite IH, (IH (10 * 0 + Z.of_N (x - 48))%Z). lia.
Qed.

Lemma decimal_value_nonneg (ip fp : jsstring) : (0 <= decimal_value ip fp)%Q.
Proof.
  unfold decimal_value.
  assert (H1 : (0 <= inject_Z (digits_value 0 ip))%Q).
  { unfold Qle, inject_Z. cbn. pose proof (digits_value_nonneg ip 0 (Z.le_refl 0)). lia. }
  assert (H2 : (0 <= match fp with
                     | [] => 0
                     | _ :: d => Qmake (digits_value 0 d) (pow10 (length d))
                     end)%Q).
  { destruct fp as [|x d]; [apply Qle_refl|].
    unfold Qle. cbn. pose proof (digits_value_nonneg d 0 (Z.le_refl 0)). lia. }
  pose proof (Qplus_le_compat _ _ _ _ H1 H2) as H. now rewrite Qplus_0_r in H.
Qed.

(** [parseFloat] of a decimal literal is the number that it denotes. *)
Lemma parseFloat_decimal (ip fp : jsstring) :
  decimal_literal ip fp ->
  exists q, parseFloat (ip ++ fp) = Num q /\ (q == decimal_value ip fp)%Q.
Proof.
  intros [Hne [Hip Hfp]]. unfold parseFloat, decimal_value.
  destruct Hfp as [-> | [d [-> [Hd Hdd]]]].
  - rewrite app_nil_r.
    pose proof (take_digits_app ip [] Hip I) as E. rewrite app_nil_r in E. rewrite E.
    destruct ip as [|x ip]; [contradiction|].
    eexists. split; [reflexivity|]. now rewrite Qplus_0_r.
  - rewrite (take_digits_app ip (46%N :: d) Hip eq_refl).
    destruct ip as [|x ip]; [contradiction|].
    pose proof (take_digits_app d [] Hdd I) as E. rewrite app_nil_r in E. rewrite E.
    eexists. split; [reflexivity|].
    rewrite Qred_correct, digits_value_acc.
    unfold Qeq, Qplus, inject_Z. cbn [Qnum Qden]. lia.
Qed.

Lemma miles_units_ok :
  unit_ok (js "mi") = true /\ unit_ok (js "mile") = true /\ unit_ok (js "miles") = true.
Proof. repeat split. Qed.

Lemma kilometers_units_ok :
  unit_ok (js "km") = true /\ unit_ok (js "kilometer") = true /\
  unit_ok (js "kilometers") = true.
Proof. repeat split. Qed.

Lemma parseFloat_group1 (a b c : string) (t : jsstring) (m : match_result) :
  unit_ok (js a) = true /\ unit_ok (js b) = true /\ unit_ok (js c) = true ->
  match_ t (distance_pattern a b c) = Some m ->
  exists q, parseFloat (group m 1) = Num q /\ (0 <= q)%Q.
Proof.
  intros Hok Hm.
  destruct (distance_group1 a b c Hok t m Hm)
    as [pre [ip [fp [ws [u [post [_ [Hd [_ [_ [_ [Hg _]]]]]]]]]]]].
  destruct (parseFloat_decimal ip fp Hd) as [q [Hq Hv]].
  exists q. rewrite Hg. split; [assumption|].
  rewrite Hv. apply decimal_value_nonneg.
Qed.

(** X4: The distance is a number, never NaN, and it is never negative. *)
Theorem distance_nonneg (t : Tweet) :
  exists q, distance t = Num q /\ (0 <= q)%Q.
Proof.
  unfold distance.
  destruct (negb (eqb_str (source t) (js "completed_event")));
    [exists 0%Q; split; [reflexivity|apply Qle_refl]|].
  change Patterns.miles with (distance_pattern "mi" "mile" "miles").
  change Patterns.kilometers with (distance_pattern "km" "kilometer" "kilometers").
  destruct (match_ (toLowerCase (text t)) (distance_pattern "mi" "mile" "miles"))
    as [m|] eqn:Em.
  - exact (parseFloat_group1 _ _ _ _ m miles_units_ok Em).
  - destruct (match_ (toLowerCase (text t)) (distance_pattern "km" "kilometer" "kilometers"))
      as [m|] eqn:Ek; [|exists 0%Q; split; [reflexivity|apply Qle_refl]].
    destruct (parseFloat_group1 _ _ _ _ m kilometers_units_ok Ek) as [q [Hq Hpos]].
    rewrite Hq. cbn [num_div]. eexists. split; [reflexivity|].
    rewrite Qred_correct. apply Qle_shift_div_l; [reflexivity|].
    now rewrite Qmult_0_l.
Qed.

(** *** Kilometres, and no unit at all *)

Lemma miles_shape_unit_shape (t : jsstring) :
  miles_shape t <-> unit_shape "mi" "mile" "miles" t.
Proof. reflexivity. Qed.

(** X5: Without a match for miles, a completed event gets its distance from
    the kilometre pattern, divided by 1.609, when that pattern matches,
    and 0 when it does not. *)
Theorem distance_without_miles (tw : Tweet) :
  source tw = js "completed_event" ->
  ~ miles_shape (toLowerCase (text tw)) ->
  (unit_shape "km" "kilometer" "kilometers" (toLowerCase (text tw)) ->
   exists m, match_ (toLowerCase (text tw)) Patterns.kilometers = Some m /\
             distance tw = num_div (parseFloat (group m 1)) (1609 # 1000)%Q) /\
  (~ unit_shape "km" "kilometer" "kilometers" (toLowerCase (text tw)) ->
   distance tw = Num 0).
Proof.
  intros Hsrc Hmi. unfold distance. rewrite Hsrc.
  replace (eqb_str (js "completed_event") (js "completed_event")) with true
    by reflexivity.
  cbn [negb].
  destruct (match_ (toLowerCase (text tw)) Patterns.miles) as [m|] eqn:Em.
  { exfalso. apply Hmi. apply test_miles_shape. unfold test. now rewrite Em. }
  pose proof (test_unit_shape "km" "kilometer" "kilometers" kilometers_units_ok
                (toLowerCase (text tw))) as Hk.
  change (distance_pattern "km" "kilometer" "kilometers") with Patterns.kilometers in Hk.
  unfold test in Hk.
  destruct (match_ (toLowerCase (text tw)) Patterns.kilometers) as [m|] eqn:Ek.
  - split; [intros _; now exists m|].
    intro Hn. exfalso. apply Hn. now apply Hk.
  - split; [|reflexivity].
    intro Hs. apply Hk in Hs. discriminate.
Qed.

Lemma distance_without_miles_witness :
  (exists m, match_ (toLowerCase (text (tweet_of "Just completed a 12.5km ride")))
                    Patterns.kilometers = Some m /\
             distance (tweet_of "Just completed a 12.5km ride") =
             num_div (parseFloat (group m 1)) (1609 # 1000)%Q) /\
  distance (tweet_of "Just completed a run in 32 min") = Num 0.
Proof.
  split.
  - apply (distance_without_miles (tweet_of "Just completed a 12.5km ride")).
    + vm_compute; reflexivity.
    + intro H. apply test_miles_shape in H. vm_compute in H. discriminate.
    + exists (js "just completed a "), (js "12"), (js ".5"), [], (js "km"), (js " ride").
      split; [vm_compute; reflexivity|].
      split; [|split; [constructor|split; [now left|reflexivity]]].
      split; [discriminate|]. split; [repeat constructor|].
      right. exists (js "5"). split; [reflexivity|]. split; [discriminate|repeat constructor].
  - apply (distance_without_miles (tweet_of "Just completed a run in 32 min")).
    + vm_compute; reflexivity.
    + intro H. apply test_miles_shape in H. vm_compute in H. discriminate.
    + intro H.
      apply (test_unit_shape "km" "kilometer" "kilometers" kilometers_units_ok) in H.
      vm_compute in H. discriminate.
Defined.

(** *** The value of the distance *)

Lemma class_run_unique (p : cu -> bool) (w1 : jsstring) :
  forall w2 r1 r2,
    Forall (fun x => p x = true) w1 -> Forall (fun x => p x = true) w2 ->
    stops p r1 -> stops p r2 ->
    w1 ++ r1 = w2 ++ r2 -> w1 = w2 /\ r1 = r2.
Proof.
  induction w1 as [|x w1 IH]; intros w2 r1 r2 H1 H2 S1 S2 E.
  - destruct w2 as [|y w2]; [now split|].
    cbn in E. subst r1. inversion H2; subst. cbn in S1. congruence.
  - destruct w2 as [|y w2].
    + cbn in E. subst r2. inversion H1; subst. cbn in S2. congruence.
    + cbn in E. injection E as -> E. inversion H1; subst. inversion H2; subst.
      destruct (IH w2 r1 r2) as [-> ->]; auto.
Qed.

Lemma digit_not_white (x : cu) : is_white x = true -> is_digit x = false.
Proof.
  intro H. apply white_not_word in H. unfold is_word in H.
  apply orb_false_iff in H as [H _]. apply orb_false_iff in H as [_ H]. exact H.
Qed.

Section FirstNumber.

Variables a b c : string.

Hypothesis units_ok :
  unit_ok (js a) = true /\ unit_ok (js b) = true /\ unit_ok (js c) = true.

Lemma unit_tail_head (ws u post : jsstring) :
  all_white ws -> (u = js a \/ u = js b \/ u = js c) ->
  exists x l, ws ++ u ++ post = x :: l /\ is_digit x = false /\ x <> 46%N.
Proof.
  intros Hws Hu. destruct ws as [|w ws].
  - destruct (unit_starts a b c units_ok u post Hu) as [x [u' [-> [Hx [Hp _]]]]].
    exists x, (u' ++ post). auto.
  - inversion Hws; subst. exists w, (ws ++ u ++ post).
    split; [reflexivity|]. split; [now apply digit_not_white|].
    intros ->. discriminate.
Qed.

Lemma stops_digit_tail (fp ws u post : jsstring) :
  (fp = [] \/ exists d, fp = 46%N :: d /\ d <> [] /\ all_digits d) ->
  all_white ws -> (u = js a \/ u = js b \/ u = js c) ->
  stops is_digit (fp ++ ws ++ u ++ post).
Proof.
  intros [-> | [d [-> _]]] Hws Hu; [|reflexivity].
  destruct (unit_tail_head ws u post Hws Hu) as [x [l [E [Hx _]]]].
  cbn [app]. rewrite E. exact Hx.
Qed.

(** One decimal number at a place: the number that a distance pattern
    reads there is fixed by the text. *)
Lemma decimal_unique (ip fp ws u post ip' fp' ws' u' post' : jsstring) :
  decimal_literal ip fp -> all_white ws -> (u = js a \/ u = js b \/ u = js c) ->
  decimal_literal ip' fp' -> all_white ws' -> (u' = js a \/ u' = js b \/ u' = js c) ->
  ip ++ fp ++ ws ++ u ++ post = ip' ++ fp' ++ ws' ++ u' ++ post' ->
  ip = ip' /\ fp = fp'.
Proof.
  intros [_ [Hip Hfp]] Hws Hu [_ [Hip' Hfp']] Hws' Hu' E.
  destruct (class_run_unique is_digit ip ip' _ _ Hip Hip'
              (stops_digit_tail fp ws u post Hfp Hws Hu)
              (stops_digit_tail fp' ws' u' post' Hfp' Hws' Hu') E) as [<- E2].
  split; [reflexivity|].
  destruct (unit_tail_head ws u post Hws Hu) as [x [l [Et [Hx Hp]]]].
  destruct (unit_tail_head ws' u' post' Hws' Hu') as [x' [l' [Et' [Hx' Hp']]]].
  destruct Hfp as [-> | [d [-> [_ Hd]]]]; destruct Hfp' as [-> | [d' [-> [_ Hd']]]].
  - reflexivity.
  - cbn [app] in E2. rewrite Et in E2. injection E2 as -> _. contradiction.
  - cbn [app] in E2. rewrite Et' in E2. injection E2 as <- _. contradiction.
  - cbn [app] in E2. injection E2 as E2.
    assert (S1 : stops is_digit (ws ++ u ++ post)) by (rewrite Et; exact Hx).
    assert (S2 : stops is_digit (ws' ++ u' ++ post')) by (rewrite Et'; exact Hx').
    destruct (class_run_unique is_digit d d' _ _ Hd Hd' S1 S2 E2) as [<- _].
    reflexivity.
Qed.

(** When no digit comes before it, the first decimal number that is
    followed by the unit is what group 1 holds. *)
Lemma first_number_group (t pre ip fp ws u post : jsstring) :
  t = pre ++ ip ++ fp ++ ws ++ u ++ post ->
  Forall (fun x => is_digit x = false) pre ->
  decimal_literal ip fp -> all_white ws ->
  (u = js a \/ u = js b \/ u = js c) -> not_word_start post ->
  exists m, match_ t (distance_pattern a b c) = Some m /\ group m 1 = ip ++ fp.
Proof.
  intros Et Hpre Hd Hws Hu Hb.
  assert (Hshape : unit_shape a b c t).
  { exists pre, ip, fp, ws, u, post. auto. }
  apply (test_unit_shape a b c units_ok) in Hshape. unfold test in Hshape.
  destruct (match_ t (distance_pattern a b c)) as [m|] eqn:Em; [|discriminate].
  exists m. split; [reflexivity|].
  destruct (distance_group1 a b c units_ok t m Em)
    as [pre' [ip' [fp' [ws' [u' [post' [Et' [Hd' [Hws' [Hu' [Hb' [Hg Hfirst]]]]]]]]]]]].
  rewrite Hg. rewrite Et in Et'.
  apply app_eq_app in Et' as [l [[E1 E2] | [E1 E2]]].
  - (* the match begins inside [pre]: at a digit *)
    destruct l as [|x l].
    + cbn [app] in E2. symmetry in E2.
      destruct (decimal_unique _ _ _ _ _ _ _ _ _ _ Hd Hws Hu Hd' Hws' Hu' E2) as [-> ->].
      reflexivity.
    + exfalso. destruct Hd' as [Hne' [Hip' _]].
      destruct ip' as [|y ip']; [contradiction|]. inversion Hip'; subst.
      cbn in E2. injection E2 as -> _.
      match goal with H : Forall _ (_ ++ _ :: _) |- _ =>
        apply Forall_app in H as [_ H]; inversion H; subst end.
      congruence.
  - (* the match begins after [pre]: not the leftmost *)
    destruct l as [|x l].
    + cbn [app] in E2.
      destruct (decimal_unique _ _ _ _ _ _ _ _ _ _ Hd Hws Hu Hd' Hws' Hu' E2) as [-> ->].
      reflexivity.
    + exfalso.
      refine (Hfirst pre (ip ++ fp ++ ws ++ u ++ post) Et _
                (Pos (rev u ++ rev ws ++ rev fp ++ rev ip ++ rev pre) post) _).
      * rewrite E1, length_app. cbn. lia.
      * apply (Matches_distance_iff a b c units_ok).
        exists ip, fp, ws, u, post. auto 7.
Qed.

End FirstNumber.

(** X6: In a completed event whose lower-cased text has no digit before a
    decimal number that is followed by mi, mile or miles, the distance is
    that number. *)
Theorem distance_first_number_miles (tw : Tweet) (pre ip fp ws u post : jsstring) :
  source tw = js "completed_event" ->
  toLowerCase (text tw) = pre ++ ip ++ fp ++ ws ++ u ++ post ->
  Forall (fun x => is_digit x = false) pre ->
  decimal_literal ip fp -> all_white ws ->
  (u = js "mi" \/ u = js "mile" \/ u = js "miles") -> not_word_start post ->
  exists q, distance tw = Num q /\ (q == decimal_value ip fp)%Q.
Proof.
  intros Hsrc Et Hpre Hd Hws Hu Hb.
  destruct (first_number_group "mi" "mile" "miles" miles_units_ok _ _ _ _ _ _ _
              Et Hpre Hd Hws Hu Hb) as [m [Hm Hg]].
  change (distance_pattern "mi" "mile" "miles") with Patterns.miles in Hm.
  unfold distance. rewrite Hsrc.
  replace (eqb_str (js "completed_event") (js "completed_event")) with true
    by reflexivity.
  cbn [negb]. rewrite Hm, Hg. now apply parseFloat_decimal.
Qed.

Lemma distance_first_number_miles_witness :
  exists q, distance (tweet_of "Just completed a 5.25 mi run") = Num q /\
            (q == decimal_value (js "5") (js ".25"))%Q.
Proof.
  apply (distance_first_number_miles (tweet_of "Just completed a 5.25 mi run")
           (js "just completed a ") (js "5") (js ".25") (js " ") (js "mi") (js " run")).
  - vm_compute; reflexivity.
  - vm_compute; reflexivity.
  - repeat constructor.
  - split; [discriminate|]. split; [repeat constructor|].
    right. exists (js "25"). split; [reflexivity|]. split; [discriminate|repeat constructor].
  - repeat constructor.
  - now left.
  - reflexivity.
Defined.

(** X7: The same with km, kilometer or kilometers when nothing in the text
    matches the miles pattern: the distance is the number divided by
    1.609. *)
Theorem distance_first_number_kilometers
        (tw : Tweet) (pre ip fp ws u post : jsstring) :
  source tw = js "completed_event" ->
  ~ miles_shape (toLowerCase (text tw)) ->
  toLowerCase (text tw) = pre ++ ip ++ fp ++ ws ++ u ++ post ->
  Forall (fun x => is_digit x = false) pre ->
  decimal_literal ip fp -> all_white ws ->
  (u = js "km" \/ u = js "kilometer" \/ u = js "kilometers") -> not_word_start post ->
  exists q, distance tw = Num q /\ (q == decimal_value ip fp / (1609 # 1000))%Q.
Proof.
  intros Hsrc Hmi Et Hpre Hd Hws Hu Hb.
  destruct (first_number_group "km" "kilometer" "kilometers" kilometers_units_ok
              _ _ _ _ _ _ _ Et Hpre Hd Hws Hu Hb) as [m [Hm Hg]].
  change (distance_pattern "km" "kilometer" "kilometers") with Patterns.kilometers in Hm.
  unfold distance. rewrite Hsrc.
  replace (eqb_str (js "completed_event") (js "completed_event")) with true
    by reflexivity.
  cbn [negb].
  destruct (match_ (toLowerCase (text tw)) Patterns.miles) as [m'|] eqn:Em.
  { exfalso. apply Hmi. apply test_miles_shape. unfold test. now rewrite Em. }
  rewrite Hm, Hg.
  destruct (parseFloat_decimal ip fp Hd) as [q [Hq Hv]].
  rewrite Hq. cbn [num_div]. eexists. split; [reflexivity|].
  now rewrite Qred_correct, Hv.
Qed.

Lemma distance_first_number_kilometers_witness :
  exists q, distance (tweet_of "Just completed a 10 km run") = Num q /\
            (q == decimal_value (js "10") [] / (1609 # 1000))%Q.
Proof.
  apply (distance_first_number_kilometers (tweet_of "Just completed a 10 km run")
           (js "just completed a ") (js "10") [] (js " ") (js "km") (js " run")).
  - vm_compute; reflexivity.
  - intro H. apply test_miles_shape in H. vm_compute in H. discriminate.
  - vm_compute; reflexivity.
  - repeat constructor.
  - split; [discriminate|]. split; [repeat constructor|now left].
  - repeat constructor.
  - now left.
  - reflexivity.
Defined.

(** *** The first link *)

Lemma strip_prefix_Some (a s rest : jsstring) :
  strip_prefix a s = Some rest <-> s = a ++ rest.
Proof.
  revert s. induction a as [|x a IH]; intro s; cbn [strip_prefix app].
  - split; [now intros [= ->]|now intros ->].
  - destruct s as [|y s]; [split; discriminate|].
    destruct (N.eqb_spec x y) as [->|Hne].
    + rewrite IH. split; [now intros ->|now intros [= ->]].
    + split; [discriminate|]. intros [= -> _]. contradiction.
Qed.

Lemma run_Seq_eq (r1 r2 : regex) (st : state) :
  run (Seq r1 r2) st = flat_map (run r2) (run r1 st).
Proof. reflexivity. Qed.

Lemma run_Eps_eq (st : state) : run Eps st = [st].
Proof. reflexivity. Qed.

Lemma run_Alt_eq (r1 r2 : regex) (st : state) :
  run (Alt r1 r2) st = run r1 st ++ run r2 st.
Proof. reflexivity. Qed.

(** A run of literal characters matches in one way at most. *)
Lemma run_lit (a : jsstring) :
  forall bef s c,
    run (lit_with N.eqb a) (Pos bef s, c) =
    match strip_prefix a s with
    | Some rest => [(Pos (rev a ++ bef) rest, c)]
    | None => []
    end.
Proof.
  induction a as [|x a IH]; intros bef s c; [reflexivity|].
  destruct a as [|x2 a].
  - cbn [lit_with]. rewrite run_Chr. cbn [strip_prefix].
    destruct s as [|y s]; [reflexivity|].
    destruct (N.eqb_spec x y) as [->|_]; reflexivity.
  - change (lit_with N.eqb (x :: x2 :: a))
      with (Seq (Chr (N.eqb x)) (lit_with N.eqb (x2 :: a))).
    rewrite run_Seq_eq, run_Chr.
    change (strip_prefix (x :: x2 :: a) s)
      with (match s with
            | [] => None
            | y :: s' => if (x =? y)%N then strip_prefix (x2 :: a) s' else None
            end).
    destruct s as [|y s]; [reflexivity|].
    destruct (N.eqb_spec x y) as [->|_]; [|reflexivity].
    cbn [flat_map]. rewrite IH, app_nil_r.
    destruct (strip_prefix (x2 :: a) s); [|reflexivity].
    cbn [rev]. now rewrite <- !app_assoc.
Qed.

Lemma take_drop_while (p : cu -> bool) (s : jsstring) :
  s = take_while p s ++ drop_while p s.
Proof.
  induction s as [|x s IH]; [reflexivity|]. cbn.
  destruct (p x); cbn; [now f_equal|reflexivity].
Qed.

Lemma take_while_Forall (p : cu -> bool) (s : jsstring) :
  Forall (fun x => p x = true) (take_while p s).
Proof.
  induction s as [|x s IH]; cbn; [constructor|].
  destruct (p x) eqn:E; [now constructor|constructor].
Qed.

Lemma drop_while_stops (p : cu -> bool) (s : jsstring) : stops p (drop_while p s).
Proof.
  induction s as [|x s IH]; cbn; [exact I|].
  destruct (p x) eqn:E; [assumption|exact E].
Qed.

(** The first way in which a repeated class matches takes the whole run. *)
Lemma star_chr_head (p : cu -> bool) (n : nat) :
  forall aft bef c,
    length aft <= n ->
    exists tl,
      star_loop (run (Chr p)) n (Pos bef aft, c) =
      (Pos (rev (take_while p aft) ++ bef) (drop_while p aft), c) :: tl.
Proof.
  induction n as [|n IH]; intros aft bef c Hn.
  - destruct aft; [|cbn in Hn; lia]. now exists [].
  - cbn [star_loop]. rewrite run_Chr.
    destruct aft as [|x aft]; [now exists []|].
    cbn [take_while drop_while]. destruct (p x) eqn:E.
    + cbn [flat_map fst after].
      destruct (Nat.ltb_spec (length aft) (length (x :: aft))) as [_|H];
        [|cbn in H; lia].
      destruct (IH aft (x :: bef) c) as [tl Htl]; [cbn in Hn; lia|].
      rewrite Htl. cbn [rev].
      rewrite <- (app_assoc (rev (take_while p aft)) [x] bef). cbn [app]. eauto.
    + cbn. eauto.
Qed.

Lemma plus_chr_head (p : cu -> bool) (bef s : jsstring) (c : caps) :
  (take_while p s = [] /\ run (plus (Chr p)) (Pos bef s, c) = []) \/
  (take_while p s <> [] /\
   exists tl, run (plus (Chr p)) (Pos bef s, c) =
              (Pos (rev (take_while p s) ++ bef) (drop_while p s), c) :: tl).
Proof.
  unfold plus. rewrite run_Seq_eq, run_Chr.
  destruct s as [|x s]; [now left|].
  cbn [take_while drop_while]. destruct (p x) eqn:E; [|now left].
  right. split; [discriminate|].
  cbn [flat_map]. rewrite app_nil_r.
  change (run (Star (Chr p)) (Pos (x :: bef) s, c))
    with (star_loop (run (Chr p)) (length s) (Pos (x :: bef) s, c)).
  destruct (star_chr_head p (length s) s (x :: bef) c (le_n _)) as [tl ->].
  exists tl. cbn [rev]. now rewrite <- app_assoc.
Qed.

Lemma run_url_tail (bef s : jsstring) (c : caps) :
  run (Seq (lit_with N.eqb (js "://")) (plus (Chr non_white))) (Pos bef s, c) =
  match strip_prefix (js "://") s with
  | Some rest => run (plus (Chr non_white)) (Pos (rev (js "://") ++ bef) rest, c)
  | None => []
  end.
Proof.
  rewrite run_Seq_eq, run_lit.
  destruct (strip_prefix (js "://") s); [|reflexivity].
  cbn [flat_map]. now rewrite app_nil_r.
Qed.

Lemma Matches_url_of_link_start (bef s : jsstring) :
  link_start s -> exists z', Matches Patterns.url (Pos bef s) z'.
Proof.
  intros [scheme [x [rest [Hs [Hx ->]]]]].
  assert (Htail : forall bef',
             Matches (Seq (lit "://") (plus (Chr non_white)))
                     (Pos bef' (js "://" ++ x :: rest))
                     (Pos (x :: rev (js "://") ++ bef') rest)).
  { intro bef'. apply Matches_Seq_iff.
    exists (Pos (rev (js "://") ++ bef') (x :: rest)). split.
    - unfold lit. apply Matches_lit_iff. eauto.
    - apply Matches_plus_chr_iff. exists [x], rest.
      split; [discriminate|]. split; [now repeat constructor|]. now split. }
  unfold Patterns.url, opt.
  destruct Hs as [-> | ->].
  - eexists. apply Matches_Seq_iff.
    exists (Pos (rev (js "http") ++ bef) (js "://" ++ x :: rest)). split.
    + unfold lit. apply Matches_lit_iff. eauto.
    + apply Matches_Seq_iff. exists (Pos (rev (js "http") ++ bef) (js "://" ++ x :: rest)).
      split; [apply M_AltR; constructor|apply Htail].
  - eexists. apply Matches_Seq_iff.
    exists (Pos (rev (js "http") ++ bef) (js "s" ++ js "://" ++ x :: rest)). split.
    + unfold lit. apply Matches_lit_iff.
      exists (js "s" ++ js "://" ++ x :: rest). split; reflexivity.
    + apply Matches_Seq_iff.
      exists (Pos (rev (js "s") ++ rev (js "http") ++ bef) (js "://" ++ x :: rest)).
      split; [|apply Htail].
      apply M_AltL. unfold lit. apply Matches_lit_iff. eauto.
Qed.

(** What the link pattern matches at a place: the scheme, "://" and all
    the characters up to the next white space. *)
Lemma match_at_url (bef s : jsstring) :
  match match_at Patterns.url (Pos bef s) with
  | Some m =>
      exists scheme rest,
        (scheme = js "http" \/ scheme = js "https") /\
        s = scheme ++ js "://" ++ rest /\
        take_while non_white rest <> [] /\
        matched m = scheme ++ js "://" ++ take_while non_white rest
  | None => ~ link_start s
  end.
Proof.
  destruct (match_at Patterns.url (Pos bef s)) as [m|] eqn:Em.
  2:{ intro H. destruct (Matches_url_of_link_start bef s H) as [z' Hz'].
      apply (proj1 (match_at_None _ _) Em z' Hz'). }
  unfold match_at in Em. unfold Patterns.url, opt, lit in Em.
  rewrite run_Seq_eq, run_lit in Em.
  destruct (strip_prefix (js "http") s) as [s1|] eqn:E1; [|discriminate].
  apply strip_prefix_Some in E1. subst s.
  cbn [flat_map] in Em. rewrite app_nil_r, run_Seq_eq, run_Alt_eq in Em.
  rewrite run_lit, run_Eps_eq in Em.
  assert (Hend : forall scheme bef' rest,
             match run (plus (Chr non_white)) (Pos bef' rest, []) with
             | [] => None
             | (z', c) :: _ =>
                 Some (MatchResult (consumed (Pos bef (scheme ++ js "://" ++ rest)) z') c)
             end = Some m ->
             take_while non_white rest <> [] /\
             matched m = scheme ++ js "://" ++ take_while non_white rest).
  { intros scheme bef' rest H.
    destruct (plus_chr_head non_white bef' rest []) as [[_ Hr]|[Hne [tl Hr]]];
      rewrite Hr in H; [discriminate|].
    injection H as <-. split; [assumption|]. cbn [matched].
    rewrite (take_drop_while non_white rest) at 1.
    match goal with
    | |- consumed (Pos _ ?l) _ = ?r =>
        replace l with (r ++ drop_while non_white rest)
          by (rewrite <- !app_assoc; reflexivity)
    end.
    apply consumed_app. }
  destruct (strip_prefix (js "s") s1) as [s2|] eqn:E2.
  - apply strip_prefix_Some in E2. subst s1.
    cbn [app flat_map] in Em. rewrite ?app_nil_r in Em.
    rewrite !run_url_tail in Em.
    replace (strip_prefix (js "://") (js "s" ++ s2)) with (@None jsstring) in Em
      by reflexivity.
    rewrite ?app_nil_r in Em.
    destruct (strip_prefix (js "://") s2) as [s3|] eqn:E3; [|discriminate].
    apply strip_prefix_Some in E3. subst s2.
    exists (js "https"), s3. split; [now right|]. split; [reflexivity|].
    exact (Hend (js "https") _ s3 Em).
  - cbn [app flat_map] in Em. rewrite ?app_nil_r in Em.
    rewrite run_url_tail in Em.
    destruct (strip_prefix (js "://") s1) as [s3|] eqn:E3; [|discriminate].
    apply strip_prefix_Some in E3. subst s1.
    exists (js "http"), s3. split; [now left|]. split; [reflexivity|].
    exact (Hend (js "http") _ s3 Em).
Qed.

Lemma match_first (s : jsstring) (r : regex) (m : match_result) :
  match_ s r = Some m ->
  exists pre post,
    s = pre ++ post /\ match_at r (Pos (rev pre) post) = Some m /\
    forall pre1 post1, s = pre1 ++ post1 -> length pre1 < length pre ->
                       match_at r (Pos (rev pre1) post1) = None.
Proof.
  unfold match_.
  enough (H : forall aft bef,
             search r bef aft = Some m ->
             exists pre post,
               aft = pre ++ post /\ match_at r (Pos (rev pre ++ bef) post) = Some m /\
               forall pre1 post1, aft = pre1 ++ post1 -> length pre1 < length pre ->
                                  match_at r (Pos (rev pre1 ++ bef) post1) = None).
  { intro Hs. destruct (H s [] Hs) as [pre [post [E [Hm Hfirst]]]].
    rewrite app_nil_r in Hm. exists pre, post. repeat split; try assumption.
    intros pre1 post1 E1 Hlt. specialize (Hfirst pre1 post1 E1 Hlt).
    now rewrite app_nil_r in Hfirst. }
  intro aft. induction aft as [|x aft IH]; intros bef Hs; cbn [search] in Hs.
  - destruct (match_at r (Pos bef [])) as [m'|] eqn:E; [|discriminate].
    injection Hs as ->. exists [], []. cbn [rev app List.length].
    repeat split; try assumption. intros; lia.
  - destruct (match_at r (Pos bef (x :: aft))) as [m'|] eqn:E.
    + injection Hs as ->. exists [], (x :: aft). cbn [rev app List.length].
      repeat split; try assumption. intros; lia.
    + destruct (IH (x :: bef) Hs) as [pre [post [-> [Hm Hfirst]]]].
      exists (x :: pre), post. cbn [rev]. rewrite <- !app_assoc. cbn [app].
      repeat split; try assumption.
      intros pre1 post1 E1 Hlt. destruct pre1 as [|y pre1].
      * cbn in E1. subst post1. exact E.
      * cbn in E1. injection E1 as -> E1. cbn [rev]. rewrite <- app_assoc. cbn [app].
        apply Hfirst; [assumption|cbn in Hlt; lia].
Qed.

(** X8: [firstLink] gives the leftmost link of the text: "http://" or
    "https://" with everything up to the next white space or the end of
    the text; it gives nothing exactly when no link starts anywhere. *)
Theorem firstLink_spec (tw : Tweet) :
  (forall link,
      firstLink tw = Some link ->
      exists pre scheme w post,
        text tw = pre ++ link ++ post /\
        link = scheme ++ js "://" ++ w /\
        (scheme = js "http" \/ scheme = js "https") /\
        w <> [] /\ Forall (fun x => non_white x = true) w /\
        stops non_white post /\
        forall pre1 post1, text tw = pre1 ++ post1 -> length pre1 < length pre ->
                           ~ link_start post1) /\
  (firstLink tw = None <->
   forall pre post, text tw = pre ++ post -> ~ link_start post).
Proof.
  unfold firstLink. split.
  - intros link Hl.
    destruct (match_ (text tw) Patterns.url) as [m|] eqn:Em; [|discriminate].
    injection Hl as <-.
    apply match_first in Em as [pre [post0 [Et [Hm Hfirst]]]].
    pose proof (match_at_url (rev pre) post0) as Hu. rewrite Hm in Hu.
    destruct Hu as [scheme [rest [Hs [-> [Hne Hmatched]]]]].
    exists pre, scheme, (take_while non_white rest), (drop_while non_white rest).
    split.
    { rewrite Et, Hmatched, <- !app_assoc.
      now rewrite <- (take_drop_while non_white rest). }
    split; [assumption|]. split; [assumption|]. split; [assumption|].
    split; [apply take_while_Forall|]. split; [apply drop_while_stops|].
    intros pre1 post1 E1 Hlt.
    pose proof (match_at_url (rev pre1) post1) as Hu1.
    now rewrite (Hfirst pre1 post1 E1 Hlt) in Hu1.
  - split.
    + intros Hn pre post Et.
      destruct (match_ (text tw) Patterns.url) as [m|] eqn:Em; [discriminate|].
      pose proof (search_None _ _ _ Em pre post Et) as Hm. rewrite app_nil_r in Hm.
      pose proof (match_at_url (rev pre) post) as Hu. now rewrite Hm in Hu.
    + intro Hno.
      destruct (match_ (text tw) Patterns.url) as [m|] eqn:Em; [|reflexivity].
      exfalso.
      apply match_first in Em as [pre [post0 [Et [Hm _]]]].
      pose proof (match_at_url (rev pre) post0) as Hu. rewrite Hm in Hu.
      destruct Hu as [scheme [rest [Hs [-> [Hne _]]]]].
      apply (Hno pre _ Et).
      destruct rest as [|x rest]; [contradiction|].
      cbn [take_while] in Hne. destruct (non_white x) eqn:Ex; [|contradiction].
      exists scheme, x, rest. auto.
Qed.

Lemma firstLink_spec_witness :
  exists pre scheme w post,
    text (tweet_of "Ran 5k http://t.co/ab and https://x.y") =
    pre ++ js "http://t.co/ab" ++ post /\
    js "http://t.co/ab" = scheme ++ js "://" ++ w /\
    (scheme = js "http" \/ scheme = js "https") /\
    w <> [] /\ Forall (fun x => non_white x = true) w /\
    stops non_white post /\
    forall pre1 post1,
      text (tweet_of "Ran 5k http://t.co/ab and https://x.y") = pre1 ++ post1 ->
      length pre1 < length pre -> ~ link_start post1.
Proof.
  apply (proj1 (firstLink_spec (tweet_of "Ran 5k http://t.co/ab and https://x.y"))).
  vm_compute; reflexivity.
Defined.

Lemma firstLink_nonempty (tw : Tweet) : firstLink tw <> Some [].
Proof.
  unfold firstLink. intro H.
  destruct (match_ (text tw) Patterns.url) as [m|] eqn:Em; [|discriminate].
  injection H as H.
  apply match_first in Em as [pre [post0 [_ [Hm _]]]].
  pose proof (match_at_url (rev pre) post0) as Hu. rewrite Hm in Hu.
  destruct Hu as [scheme [rest [Hs [_ [_ Hmatched]]]]].
  rewrite H in Hmatched. destruct Hs as [-> | ->]; discriminate.
Qed.

(** *** Letter case *)

(** X9: Two texts that are equal once lower-cased have the same category,
    activity type and distance. *)
Theorem lower_case_decides (a b time_a time_b : jsstring) :
  toLowerCase a = toLowerCase b ->
  source (new_Tweet (Some a) time_a) = source (new_Tweet (Some b) time_b) /\
  activityType (new_Tweet (Some a) time_a) = activityType (new_Tweet (Some b) time_b) /\
  distance (new_Tweet (Some a) time_a) = distance (new_Tweet (Some b) time_b).
Proof.
  intro E.
  assert (Et : toLowerCase (text (new_Tweet (Some a) time_a)) =
               toLowerCase (text (new_Tweet (Some b) time_b))).
  { cbn [new_Tweet text]. now rewrite !toLowerCase_trim, E. }
  assert (Es : source (new_Tweet (Some a) time_a) = source (new_Tweet (Some b) time_b)).
  { unfold source. now rewrite Et. }
  split; [exact Es|]. split.
  - unfold activityType. now rewrite Es, Et.
  - unfold distance. now rewrite Es, Et.
Qed.

Lemma lower_case_decides_witness :
  source (new_Tweet (Some (js "JUST COMPLETED A 5 MI RUN")) []) =
  source (new_Tweet (Some (js "Just completed a 5 mi run")) []) /\
  activityType (new_Tweet (Some (js "JUST COMPLETED A 5 MI RUN")) []) =
  activityType (new_Tweet (Some (js "Just completed a 5 mi run")) []) /\
  distance (new_Tweet (Some (js "JUST COMPLETED A 5 MI RUN")) []) =
  distance (new_Tweet (Some (js "Just completed a 5 mi run")) []).
Proof.
  apply (lower_case_decides (js "JUST COMPLETED A 5 MI RUN") (js "Just completed a 5 mi run")).
  vm_compute; reflexivity.
Defined.

(** *** The table row *)

(** X10: The third cell of a row holds the normalized text whether or not the
    tweet is user-written, followed by the anchor of the first link when
    the text has one; the first cell holds the row number plus one. *)
Theorem getHTMLTableRow_cells (tw : Tweet) (rowNumber : nat) :
  getHTMLTableRow tw rowNumber =
  row_template (String_of_nat (rowNumber + 1)) (activityType tw)
    (stripped tw ++ match firstLink tw with Some link => anchor link | None => [] end).
Proof.
  unfold getHTMLTableRow, writtenText.
  replace (if written tw then if written tw then stripped tw else [] else stripped tw)
    with (stripped tw) by (now destruct (written tw)).
  pose proof (firstLink_nonempty tw) as Hne.
  destruct (firstLink tw) as [[|c l]|]; [contradiction|reflexivity|].
  now rewrite app_nil_r.
Qed.

(** ** The search of js/descriptions.js *)




Lemma trim_blank (q : jsstring) : all_white q -> trim q = [].
Proof. intro H. unfold trim. now rewrite (trimStart_all_white q H). Qed.

(** X11: A query that is missing, empty or white space only shows "0", no
    text and no rows, whatever the tweets. *)
Theorem search_blank (userWritten : list Tweet) (q : jsstring) :
  all_white q ->
  Descriptions.search userWritten (Some q) =
  {| Descriptions.searchCount := js "0"; Descriptions.searchText := [];
     Descriptions.tweetTable := [] |} /\
  Descriptions.search userWritten None = Descriptions.search userWritten (Some q).
Proof.
  intro H. unfold Descriptions.search. rewrite (trim_blank q H). split; reflexivity.
Qed.

Lemma search_blank_witness :
  Descriptions.search [tweet_of "Just posted a run - so hot today"] (Some (js "   ")) =
  {| Descriptions.searchCount := js "0"; Descriptions.searchText := [];
     Descriptions.tweetTable := [] |} /\
  Descriptions.search [tweet_of "Just posted a run - so hot today"] None =
  Descriptions.search [tweet_of "Just posted a run - so hot today"] (Some (js "   ")).
Proof.
  apply (search_blank [tweet_of "Just posted a run - so hot today"] (js "   ")).
  repeat constructor.
Defined.






(** ** The tallies of js/about.js and js/activities.js *)

Ltac eval_eqb_js :=
  match goal with
  | |- context [eqb_str (js ?x) (js ?y)] =>
      let v := eval vm_compute in (eqb_str (js x) (js y)) in
      change (eqb_str (js x) (js y)) with v
  end.

Ltac same_counts :=
  repeat (apply f_equal2; [apply f_equal2; [reflexivity|lia]|]); reflexivity.

Lemma tally_from (tweets : list Tweet) :
  forall a b c d,
    fold_left (fun o t => bump (source t) o) tweets
      [ (js "completed_event", a); (js "live_event", b);
        (js "achievement", c); (js "miscellaneous", d) ] =
    [ (js "completed_event", a + count_source (js "completed_event") tweets);
      (js "live_event", b + count_source (js "live_event") tweets);
      (js "achievement", c + count_source (js "achievement") tweets);
      (js "miscellaneous", d + count_source (js "miscellaneous") tweets) ].
Proof.
  unfold count_source.
  induction tweets as [|t tweets IH]; intros a b c d; cbn [fold_left filter].
  - cbn [List.length]. now rewrite !Nat.add_0_r.
  - destruct (source_cases t) as [E|[E|[E|E]]]; rewrite E;
      repeat (eval_eqb_js; cbn [bump]); rewrite IH;
      cbn [List.length]; same_counts.
Qed.

Lemma count_source_total (tweets : list Tweet) :
  count_source (js "completed_event") tweets + count_source (js "live_event") tweets
  + count_source (js "achievement") tweets + count_source (js "miscellaneous") tweets
  = length tweets.
Proof.
  unfold count_source. induction tweets as [|t tweets IH]; [reflexivity|].
  cbn [filter]. destruct (source_cases t) as [E|[E|[E|E]]]; rewrite E;
    repeat eval_eqb_js; cbn [List.length]; lia.
Qed.

(** X14: The tally of about.js keeps the four keys of [counts] in place and
    adds no key; each count is the number of tweets of that category, the
    count of completed events is [completed.length], and the four counts
    add up to the number of tweets. *)
Theorem tally_counts (tweets : list Tweet) :
  About.tally tweets =
  [ (js "completed_event", count_source (js "completed_event") tweets);
    (js "live_event", count_source (js "live_event") tweets);
    (js "achievement", count_source (js "achievement") tweets);
    (js "miscellaneous", count_source (js "miscellaneous") tweets) ] /\
  sum_counts (About.tally tweets) = length tweets /\
  counter_get (js "completed_event") (About.tally tweets) =
  Some (length (About.completed tweets)).
Proof.
  assert (E : About.tally tweets =
              [ (js "completed_event", count_source (js "completed_event") tweets);
                (js "live_event", count_source (js "live_event") tweets);
                (js "achievement", count_source (js "achievement") tweets);
                (js "miscellaneous", count_source (js "miscellaneous") tweets) ]).
  { unfold About.tally, About.counts0. now rewrite tally_from. }
  split; [exact E|]. rewrite E. split.
  - cbn [sum_counts fold_right snd]. pose proof (count_source_total tweets). lia.
  - reflexivity.
Qed.

Lemma counter_get_bump (k x : jsstring) (c : counter) :
  counter_get k (bump x c) =
  if eqb_str k x
  then Some (match counter_get k c with Some v => v + 1 | None => 1 end)
  else counter_get k c.
Proof.
  induction c as [|[k' v] c IH]; cbn [bump counter_get].
  - destruct (eqb_str k x); reflexivity.
  - destruct (eqb_str x k') eqn:Exk'; cbn [counter_get].
    + apply eqb_str_eq in Exk'. subst k'.
      destruct (eqb_str k x); reflexivity.
    + destruct (eqb_str k k') eqn:Ekk'; [|exact IH].
      apply eqb_str_eq in Ekk'. subst k'.
      destruct (eqb_str k x) eqn:Ekx; [|reflexivity].
      apply eqb_str_eq in Ekx. subst x.
      rewrite (proj2 (eqb_str_eq k k) eq_refl) in Exk'. discriminate.
Qed.

Lemma sum_counts_bump (x : jsstring) (c : counter) :
  sum_counts (bump x c) = S (sum_counts c).
Proof.
  unfold sum_counts. induction c as [|[k' v] c IH]; cbn [bump fold_right snd].
  - reflexivity.
  - destruct (eqb_str x k'); cbn [fold_right snd]; [lia|]. rewrite IH. lia.
Qed.

Lemma keys_bump (x : jsstring) (c : counter) :
  List.map fst (bump x c) = Activities.set_add (List.map fst c) x.
Proof.
  unfold Activities.set_add.
  induction c as [|[k' v] c IH]; cbn [bump List.map fst existsb]; [reflexivity|].
  destruct (eqb_str x k'); cbn [List.map fst orb]; [reflexivity|].
  rewrite IH. destruct (existsb (eqb_str x) (List.map fst c)); reflexivity.
Qed.

Section CountRows.

Import Activities.

Lemma counts_fold (l : list ActivityRow) :
  forall m k,
    counter_get k (fold_left (fun m r => bump (type r) m) l m) =
    match count_type k l with
    | O => counter_get k m
    | S _ => Some (match counter_get k m with Some v => v | None => 0 end
                   + count_type k l)
    end.
Proof.
  unfold count_type.
  induction l as [|r l IH]; intros m k; cbn [fold_left filter]; [reflexivity|].
  rewrite IH, counter_get_bump.
  assert (Es : eqb_str (type r) k = eqb_str k (type r)).
  { destruct (eqb_str (type r) k) eqn:E1.
    - apply eqb_str_eq in E1. symmetry. now apply eqb_str_eq.
    - apply eqb_str_neq in E1. symmetry. apply eqb_str_neq. congruence. }
  rewrite Es. destruct (eqb_str k (type r)); cbn [List.length].
  - destruct (length (filter (fun r0 => eqb_str (type r0) k) l));
      destruct (counter_get k m); f_equal; lia.
  - reflexivity.
Qed.

Lemma sum_fold (l : list ActivityRow) :
  forall m,
    sum_counts (fold_left (fun m r => bump (type r) m) l m) = sum_counts m + length l.
Proof.
  induction l as [|r l IH]; intro m; cbn [fold_left List.length]; [lia|].
  rewrite IH, sum_counts_bump. lia.
Qed.

Lemma keys_fold (l : list ActivityRow) :
  forall m,
    List.map fst (fold_left (fun m r => bump (type r) m) l m) =
    fold_left set_add (List.map type l) (List.map fst m).
Proof.
  induction l as [|r l IH]; intro m; cbn [fold_left List.map]; [reflexivity|].
  now rewrite IH, keys_bump.
Qed.

Lemma Set_of_from_incl (l : list jsstring) :
  forall s x, In x (fold_left set_add l s) -> In x s \/ In x l.
Proof.
  induction l as [|y l IH]; intros s x H; cbn [fold_left] in H; [now left|].
  apply IH in H as [H|H]; [|right; now right].
  unfold set_add in H. destruct (existsb (eqb_str y) s); [now left|].
  apply in_app_or in H as [H|[<-|[]]]; [now left|right; now left].
Qed.

Lemma valid_row (getDay : jsstring -> number) (tweets : list Tweet) (r : ActivityRow) :
  In r (valid getDay tweets) ->
  exists t, In t tweets /\ source t = js "completed_event" /\
            type r = activityType t /\ miles r = distance t /\
            activityType t <> js "unknown" /\ positive (distance t) = true.
Proof.
  unfold valid, rows, completed. intro H.
  apply filter_In in H as [H Hv]. apply in_map_iff in H as [t [<- Ht]].
  apply filter_In in Ht as [Ht Hs]. apply eqb_str_eq in Hs.
  unfold is_valid in Hv. cbn [type miles dow] in Hv.
  apply andb_true_iff in Hv as [Hv Hp]. apply andb_true_iff in Hv as [_ Hu].
  apply negb_true_iff, eqb_str_neq in Hu.
  exists t. cbn [type miles]. auto 7.
Qed.

End CountRows.

(** X15: The counts of activities.js: [countsMap.get(k)] is the number of
    valid rows of type [k] and is undefined when there is none; the
    counts add up to the number of valid rows; every key is the activity
    type, other than "unknown", of a completed tweet with a distance
    above 0. *)
Theorem countsMap_counts (getDay : jsstring -> number) (tweets : list Tweet) :
  (forall k,
      counter_get k (Activities.countsMap getDay tweets) =
      match count_type k (Activities.valid getDay tweets) with
      | O => None
      | S n => Some (S n)
      end) /\
  sum_counts (Activities.countsMap getDay tweets) =
  length (Activities.valid getDay tweets) /\
  (forall k n,
      In (k, n) (Activities.countsMap getDay tweets) ->
      exists t, In t tweets /\ source t = js "completed_event" /\
                activityType t = k /\ k <> js "unknown" /\
                Activities.positive (distance t) = true).
Proof.
  unfold Activities.countsMap. split; [|split].
  - intro k. rewrite counts_fold. cbn [counter_get].
    destruct (count_type k (Activities.valid getDay tweets)); reflexivity.
  - now rewrite sum_fold.
  - intros k n H.
    apply (in_map fst) in H. cbn [fst] in H. rewrite keys_fold in H.
    apply Set_of_from_incl in H as [[]|H].
    apply in_map_iff in H as [r [<- Hr]].
    destruct (valid_row getDay tweets r Hr) as [t [Ht [Hs [Et [_ [Hu Hp]]]]]].
    exists t. rewrite Et. auto 7.
Qed.

(** X16: The number of activities shown is the number of keys of [countsMap],
    the number of bars of the chart. *)
Theorem numberActivities_countsMap (getDay : jsstring -> number) (tweets : list Tweet) :
  Activities.numberActivities getDay tweets = length (Activities.countsMap getDay tweets).
Proof.
  unfold Activities.numberActivities, Activities.countsMap, Activities.Set_of.
  rewrite <- (length_map fst (fold_left _ _ _)). now rewrite keys_fold.
Qed.
